(** * singleflight: coalescing of identical calls

    A shallow embedding of [src/singleflight.py] (classes [CallLock] and
    [SingleFlight]) as an interleaving state machine: every thread that is
    inside [SingleFlight.call] has a program point named after the source
    line it is about to execute, and one [step] executes that line
    atomically.  The registry [self.m], the lock [self.lock] and the
    [CallLock] objects are shared by all threads. *)

From stdpp Require Import base decidable countable strings list gmap.
From Stdlib Require Import ZArith Lia.

Open Scope string_scope.
Open Scope list_scope.
Open Scope nat_scope.

(** ** Python values *)

(** The values the model needs: [None], integers, strings and function
    objects.  A function object is known by its identity; what it does when
    it is called is given by an interpretation [impl]. *)
Inductive pyval :=
| PNone
| PInt (z : Z)
| PStr (s : string)
| PFun (f : nat).

#[global] Instance pyval_eq_dec : EqDecision pyval.
Proof. solve_decision. Defined.

#[global] Instance pyval_countable : Countable pyval.
Proof.
  refine (inj_countable'
    (fun v => match v with
              | PNone => inl (inl ())
              | PInt z => inl (inr z)
              | PStr s => inr (inl s)
              | PFun f => inr (inr f)
              end)
    (fun c => match c with
              | inl (inl _) => PNone
              | inl (inr z) => PInt z
              | inr (inl s) => PStr s
              | inr (inr f) => PFun f
              end) _).
  by intros [].
Defined.

(** An exception object: its class, its argument, whether the class derives
    from [Exception] (as opposed to deriving from [BaseException] only, like
    [KeyboardInterrupt] and [SystemExit]), and its truth value ([True] unless
    the class defines [__bool__] or [__len__]). *)
Record pyexn := PyExn {
  exn_class : string;
  exn_arg : pyval;
  exn_is_Exception : bool;
  exn_truthy : bool
}.

#[global] Instance pyexn_eq_dec : EqDecision pyexn.
Proof. solve_decision. Defined.

(** How a call ends: with a value or with a raised exception. *)
Inductive outcome :=
| Return (v : pyval)
| Raise (e : pyexn).

#[global] Instance outcome_eq_dec : EqDecision outcome.
Proof. solve_decision. Defined.

(** [isinstance(key, str)] *)
Definition is_str (v : pyval) : bool :=
  match v with PStr _ => true | _ => false end.

(** [isinstance(fn, Callable)] *)
Definition is_callable (v : pyval) : bool :=
  match v with PFun _ => true | _ => false end.

(** Truth value of the [err] slot in [if self.m[key].err:]. *)
Definition truthy (o : option pyexn) : bool :=
  match o with Some e => exn_truthy e | None => false end.

Definition TypeError (msg : string) : pyexn := PyExn "TypeError" (PStr msg) true true.
Definition KeyError (key : pyval) : pyexn := PyExn "KeyError" key true true.
Definition RuntimeError (msg : string) : pyexn := PyExn "RuntimeError" (PStr msg) true true.

(** ** class CallLock *)

Record CallLock := MkCallLock {
  ev : bool;             (* the Event: set or not *)
  res : pyval;
  err : option pyexn     (* None is Python's None *)
}.

#[global] Instance CallLock_eq_dec : EqDecision CallLock.
Proof. solve_decision. Defined.

(** [CallLock.__init__] *)
Definition CallLock_init : CallLock := MkCallLock false PNone None.

Definition set_res (v : pyval) (c : CallLock) : CallLock := MkCallLock (ev c) v (err c).
Definition set_err (e : option pyexn) (c : CallLock) : CallLock := MkCallLock (ev c) (res c) e.
Definition set_ev (c : CallLock) : CallLock := MkCallLock true (res c) (err c).

(** ** Threads inside SingleFlight.call *)

(** Program points of [call]; the number is the source line the thread
    executes next.  [cl] is the local variable of the leader path, an
    address of a [CallLock]. *)
Inductive pc :=
| L53                          (* if not isinstance(key, str) *)
| L55                          (* if not isinstance(fn, Callable) *)
| L60                          (* self.lock.acquire(True) *)
| L61                          (* if key in self.m *)
| L65                          (* self.lock.release() *)
| L66                          (* self.m[key].ev *)
| L66w (c : nat)               (*   .wait() on the event of the record found *)
| L68                          (* if self.m[key].err *)
| L69                          (* raise self.m[key].err *)
| L70                          (* return self.m[key].res *)
| L72                          (* cl = CallLock() *)
| L73 (cl : nat)               (* self.m[key] = cl *)
| L74 (cl : nat)               (* self.lock.release() *)
| L77 (cl : nat)               (* cl.res = fn( *args, **kwargs) *)
| L78 (cl : nat)               (* cl.err = None *)
| L80 (cl : nat) (e : pyexn)   (* except Exception as e: cl.res = None *)
| L81 (cl : nat) (e : pyexn)   (* cl.err = e *)
| L87 (cl : nat)               (* cl.ev.set() *)
| L88 (cl : nat)               (* sleep(0.01) *)
| L92 (cl : nat)               (* with self.lock: (acquire) *)
| L93 (cl : nat)               (* del(self.m[key]) *)
| L94 (cl : nat)               (* end of the with block (release) *)
| L95 (cl : nat)               (* if cl.err is not None: raise / return *)
| Done (o : outcome).

#[global] Instance pc_eq_dec : EqDecision pc.
Proof. solve_decision. Defined.

(** The frame of one invocation [call(fn, key, *args, **kwargs)]. *)
Record thread := MkThread {
  t_fn : pyval;
  t_key : pyval;
  t_args : list pyval;
  t_kwargs : gmap string pyval;
  t_pc : pc
}.

Definition at_pc (p : pc) (th : thread) : thread :=
  MkThread (t_fn th) (t_key th) (t_args th) (t_kwargs th) p.

(** One recorded invocation of an operation: who called, for which record
    and key, with which arguments, and how it ended. *)
Record invocation := MkInvocation {
  inv_tid : nat;
  inv_cl : nat;
  inv_key : pyval;
  inv_fn : pyval;
  inv_args : list pyval;
  inv_kwargs : gmap string pyval;
  inv_result : outcome
}.

Section Model.

(** What operations can see and change outside the component. *)
Context {W : Type}.

(** An operation takes positional and keyword arguments and the outside
    world, and returns or raises. *)
Definition op : Type := list pyval → gmap string pyval → W → outcome * W.

(** The behaviour of every function object. *)
Variable impl : nat → op.

(** ** The shared state: one [SingleFlight] object and its callers *)

Record state := MkState {
  lock : option nat;           (* self.lock: None if free, else who acquired it *)
  m : gmap pyval nat;          (* self.m: key -> address of a CallLock *)
  heap : list CallLock;        (* the CallLock objects, by address *)
  threads : list thread;       (* the callers, by thread id *)
  world : W;
  calls : list invocation      (* every invocation of an operation so far *)
}.

(** [SingleFlight.__init__] with the given callers about to enter [call]. *)
Definition SingleFlight_init (ths : list thread) (w : W) : state :=
  MkState None ∅ [] ths w [].

Definition goto (t : nat) (p : pc) (s : state) : state :=
  MkState (lock s) (m s) (heap s) (alter (at_pc p) t (threads s)) (world s) (calls s).
Definition with_lock (o : option nat) (s : state) : state :=
  MkState o (m s) (heap s) (threads s) (world s) (calls s).
Definition with_m (r : gmap pyval nat) (s : state) : state :=
  MkState (lock s) r (heap s) (threads s) (world s) (calls s).
Definition with_heap (h : list CallLock) (s : state) : state :=
  MkState (lock s) (m s) h (threads s) (world s) (calls s).
Definition with_call (w : W) (i : invocation) (s : state) : state :=
  MkState (lock s) (m s) (heap s) (threads s) w (calls s ++ [i]).

(** [self.m[key]]: the record registered under [key], if any. *)
Definition registered (key : pyval) (s : state) : option CallLock :=
  c ← m s !! key; heap s !! c.

(** [self.lock.release()], continuing at [p]. *)
Definition release (t : nat) (p : pc) (s : state) : state :=
  match lock s with
  | Some _ => goto t p (with_lock None s)
  | None => goto t (Done (Raise (RuntimeError "release unlocked lock"))) s
  end.

(** [self.lock.acquire(True)], continuing at [p]; blocked while the lock is
    held. *)
Definition acquire (t : nat) (p : pc) (s : state) : option state :=
  match lock s with
  | None => Some (goto t p (with_lock (Some t) s))
  | Some _ => None
  end.

(** [fn( *args, **kwargs)] for whatever object [fn] is. *)
Definition invoke (fn : pyval) (args : list pyval) (kwargs : gmap string pyval)
    (w : W) : outcome * W :=
  match fn with
  | PFun f => impl f args kwargs w
  | _ => (Raise (TypeError "object is not callable"), w)
  end.

(** The source line at the program point of thread [t], whose frame is
    [th], executed atomically.  [None] when the thread has left [call] or is
    blocked.  An address is only ever obtained from an allocation (line 72),
    so the lookups in the heap cannot fail. *)
Definition exec_line (t : nat) (th : thread) (s : state) : option state :=
  match t_pc th with
  | L53 =>
      Some (if is_str (t_key th) then goto t L55 s
            else goto t (Done (Raise (TypeError "Key should be a str"))) s)
  | L55 =>
      Some (if is_callable (t_fn th) then goto t L60 s
            else goto t (Done (Raise (TypeError "fn should be a callable"))) s)
  | L60 => acquire t L61 s
  | L61 =>
      Some (match m s !! t_key th with
            | Some _ => goto t L65 s
            | None => goto t L72 s
            end)
  | L65 => Some (release t L66 s)
  | L66 =>
      match m s !! t_key th with
      | Some c => Some (goto t (L66w c) s)
      | None => Some (goto t (Done (Raise (KeyError (t_key th)))) s)
      end
  | L66w c =>
      r ← heap s !! c;
      if ev r then Some (goto t L68 s) else None
  | L68 =>
      match m s !! t_key th with
      | Some c => r ← heap s !! c; Some (goto t (if truthy (err r) then L69 else L70) s)
      | None => Some (goto t (Done (Raise (KeyError (t_key th)))) s)
      end
  | L69 =>
      match m s !! t_key th with
      | Some c =>
          r ← heap s !! c;
          Some (goto t (Done (Raise
            (match err r with
             | Some e => e
             | None => TypeError "exceptions must derive from BaseException"
             end))) s)
      | None => Some (goto t (Done (Raise (KeyError (t_key th)))) s)
      end
  | L70 =>
      match m s !! t_key th with
      | Some c => r ← heap s !! c; Some (goto t (Done (Return (res r))) s)
      | None => Some (goto t (Done (Raise (KeyError (t_key th)))) s)
      end
  | L72 => Some (goto t (L73 (length (heap s))) (with_heap (heap s ++ [CallLock_init]) s))
  | L73 cl => Some (goto t (L74 cl) (with_m (<[t_key th := cl]> (m s)) s))
  | L74 cl => Some (release t (L77 cl) s)
  | L77 cl =>
      let '(o, w) := invoke (t_fn th) (t_args th) (t_kwargs th) (world s) in
      let s1 := with_call w
                  (MkInvocation t cl (t_key th) (t_fn th) (t_args th) (t_kwargs th) o) s in
      Some (match o with
            | Return v => goto t (L78 cl) (with_heap (alter (set_res v) cl (heap s)) s1)
            | Raise e =>
                if exn_is_Exception e then goto t (L80 cl e) s1
                else goto t (Done (Raise e)) s1
            end)
  | L78 cl => Some (goto t (L87 cl) (with_heap (alter (set_err None) cl (heap s)) s))
  | L80 cl e => Some (goto t (L81 cl e) (with_heap (alter (set_res PNone) cl (heap s)) s))
  | L81 cl e => Some (goto t (L87 cl) (with_heap (alter (set_err (Some e)) cl (heap s)) s))
  | L87 cl => Some (goto t (L88 cl) (with_heap (alter set_ev cl (heap s)) s))
  | L88 cl => Some (goto t (L92 cl) s)
  | L92 cl => acquire t (L93 cl) s
  | L93 cl =>
      match m s !! t_key th with
      | Some _ => Some (goto t (L94 cl) (with_m (delete (t_key th) (m s)) s))
      | None => Some (goto t (Done (Raise (KeyError (t_key th)))) (with_lock None s))
      end
  | L94 cl => Some (release t (L95 cl) s)
  | L95 cl =>
      r ← heap s !! cl;
      Some (goto t (Done (match err r with
                          | Some e => Raise e
                          | None => Return (res r)
                          end)) s)
  | Done _ => None
  end.

(** One step of thread [t]; [None] also when there is no such thread. *)
Definition step (t : nat) (s : state) : option state :=
  th ← threads s !! t; exec_line t th s.

(** A schedule is the list of thread ids in the order they get a turn; a
    turn given to a thread that cannot move changes nothing. *)
Fixpoint run (sched : list nat) (s : state) : state :=
  match sched with
  | [] => s
  | t :: sched' => run sched' (default s (step t s))
  end.

(** How thread [t] left [call], if it has. *)
Definition result_of (t : nat) (s : state) : option outcome :=
  th ← threads s !! t;
  match t_pc th with Done o => Some o | _ => None end.

Definition pc_of (t : nat) (s : state) : option pc := t_pc <$> threads s !! t.


End Model.

(** [self.call(fn, key, *args, **kwargs)]: a caller about to execute the
    first line of [call]. *)
Definition call (fn key : pyval) (args : list pyval) (kwargs : gmap string pyval) : thread :=
  MkThread fn key args kwargs L53.

(** ** SingleFlight.wrap *)







#[global] Instance thread_eq_dec : EqDecision thread.
Proof. solve_decision. Defined.

#[global] Instance invocation_eq_dec : EqDecision invocation.
Proof. solve_decision. Defined.

(** ** Invariants of one execution *)

Section Invariants.

Context {W : Type}.
Implicit Types (s : @state W) (t tl tf l c : nat) (k : pyval).
Implicit Types (r : CallLock) (th : thread) (p : pc) (cs : list invocation).

(** The invocations made on behalf of the record at address [l]. *)
Definition calls_for l cs : list invocation :=
  filter (λ i, inv_cl i = l) cs.

(** The record a leader at [p] has created and not yet completed. *)
Definition pre_owns p : option nat :=
  match p with
  | L73 c | L74 c | L77 c | L78 c | L80 c _ | L81 c _ | L87 c => Some c
  | _ => None
  end.

(** Program points at which the thread holds [self.lock]. *)
Definition in_cs p : bool :=
  match p with
  | L61 | L65 | L72 | L73 _ | L74 _ | L93 _ | L94 _ => true
  | _ => false
  end.

(** Program points of the follower path: the caller has found its key in
    the registry. *)
Definition attached p : bool :=
  match p with
  | L65 | L66 | L66w _ | L68 | L69 | L70 | Done _ => true
  | _ => false
  end.

(** The number of lines a follower still has to execute. *)
Definition todo p : nat :=
  match p with
  | L65 => 5
  | L66 => 4
  | L66w _ => 3
  | L68 => 2
  | L69 | L70 => 1
  | _ => 0
  end.

(** The number of turns a schedule gives to thread [t]. *)
Definition turns t (sched : list nat) : nat :=
  length (filter (λ x, x = t) sched).

(** The invocation thread [tl] with frame [th] makes for record [l]. *)
Definition mk_inv tl l th (o : outcome) : invocation :=
  MkInvocation tl l (t_key th) (t_fn th) (t_args th) (t_kwargs th) o.

(** What a record says about how the operation ended (line 95). *)
Definition outcome_in r : outcome :=
  match err r with Some e => Raise e | None => Return (res r) end.

(** What a follower makes of a record (lines 68 to 70). *)
Definition follower_outcome r : outcome :=
  match err r with
  | Some e => if exn_truthy e then Raise e else Return (res r)
  | None => Return (res r)
  end.

(** The completed record of an operation that ended with [o]: lines 77, 78
    and 87 after a return, lines 80, 81 and 87 after an exception. *)
Definition slots_of (o : outcome) : CallLock :=
  match o with
  | Return v => MkCallLock true v None
  | Raise e => MkCallLock true PNone (Some e)
  end.

(** Whether [except Exception] catches what the operation did. *)
Definition caught (o : outcome) : bool :=
  match o with
  | Return _ => true
  | Raise e => exn_is_Exception e
  end.

(** The record holds the outcome of the one invocation made for it. *)
Definition recorded tl l th r cs : Prop :=
  cs = [mk_inv tl l th (outcome_in r)] ∧
  match err r with
  | Some e => exn_is_Exception e = true ∧ res r = PNone
  | None => True
  end.

(** The one invocation made for the record raised an exception that
    [except Exception] does not catch. *)
Definition abandoned tl l th cs : Prop :=
  match cs with
  | [i] =>
      match inv_result i with
      | Raise e => i = mk_inv tl l th (Raise e) ∧ exn_is_Exception e = false
      | Return _ => False
      end
  | _ => False
  end.

Definition completed tl l th r cs : Prop :=
  if ev r then recorded tl l th r cs else abandoned tl l th cs.

(** The leader [tl] of record [l], at each of its program points. *)
Definition leader_rec tl l th r cs : Prop :=
  match t_pc th with
  | L73 c | L74 c => c ≠ l ∧ completed tl l th r cs
  | L77 c =>
      if decide (c = l) then ev r = false ∧ cs = []
      else completed tl l th r cs
  | L78 c =>
      if decide (c = l) then ev r = false ∧ cs = [mk_inv tl l th (Return (res r))]
      else completed tl l th r cs
  | L80 c e =>
      if decide (c = l)
      then ev r = false ∧ cs = [mk_inv tl l th (Raise e)] ∧ exn_is_Exception e = true
      else completed tl l th r cs
  | L81 c e =>
      if decide (c = l)
      then ev r = false ∧ cs = [mk_inv tl l th (Raise e)] ∧ exn_is_Exception e = true
           ∧ res r = PNone
      else completed tl l th r cs
  | L87 c =>
      if decide (c = l) then ev r = false ∧ recorded tl l th r cs
      else completed tl l th r cs
  | _ => completed tl l th r cs
  end.

(** A property of every thread, by thread id. *)
Definition all_threads (P : nat → thread → Prop) s : Prop :=
  Forall (λ x, P x.1 x.2) (imap pair (threads s)).

(** Only the leader writes to its record. *)
Definition not_owner tl l t th : Prop :=
  t ≠ tl → pre_owns (t_pc th) ≠ Some l.

(** [rec_inv tl l s]: record [l] belongs to the execution led by [tl]. *)
Definition rec_inv tl l s : Prop :=
  match heap s !! l, threads s !! tl with
  | Some r, Some th =>
      leader_rec tl l th r (calls_for l (calls s)) ∧ all_threads (not_owner tl l) s
  | _, _ => False
  end.

(** Whoever is between lines 61 and 74, or 93 and 94, holds the lock. *)
Definition holds_lock (lk : option nat) t th : Prop :=
  in_cs (t_pc th) = true → lk = Some t.

(** Between finding [k] absent and deleting it again, a caller with key [k]
    can only be the leader [tl] working on record [l]. *)
Definition key_claim tl k l t th : Prop :=
  t_key th = k →
  match t_pc th with
  | L72 | L73 _ | L74 _ => False
  | L77 c | L78 c | L80 c _ | L81 c _ | L87 c | L88 c | L92 c | L93 c => t = tl ∧ c = l
  | _ => True
  end.

(** [exec_ok tl k l s]: the execution led by [tl] for key [k] is in flight
    with record [l] registered under [k]. *)
Definition exec_ok tl k l s : Prop :=
  rec_inv tl l s ∧ m s !! k = Some l ∧
  all_threads (holds_lock (lock s)) s ∧ all_threads (key_claim tl k l) s.

(** [follower tf k l s]: thread [tf] is a caller with key [k] and valid
    arguments that is not the leader: it has yet to look for its key, or it
    is on the follower path of record [l]. *)
Definition follower tf k l s : Prop :=
  match heap s !! l, threads s !! tf with
  | Some r, Some th =>
      t_key th = k ∧
      match t_pc th with
      | L53 => is_str (t_key th) = true ∧ is_callable (t_fn th) = true
      | L55 => is_callable (t_fn th) = true
      | L60 | L61 | L65 | L66 => True
      | L66w c => c = l
      | L68 => ev r = true
      | L69 => ev r = true ∧ truthy (err r) = true
      | L70 => ev r = true ∧ truthy (err r) = false
      | Done o => ev r = true ∧ o = follower_outcome r
      | _ => False
      end
  | _, _ => False
  end.

(** Record [l] with contents [r] is what the registry holds for key [k]. *)
Definition serves k l r s : Prop :=
  m s !! k = Some l ∧ heap s !! l = Some r.

(** The completion signal of record [l] has fired. *)
Definition fired l s : Prop :=
  match heap s !! l with Some r => ev r = true | None => False end.

(** What a caller on the leader path has established, from the moment it
    has found its key absent until it has removed its key again. *)
Definition leader_ok s t th : Prop :=
  match t_pc th with
  | L72 => m s !! t_key th = None
  | L73 c =>
      m s !! t_key th = None ∧ heap s !! c = Some CallLock_init
      ∧ calls_for c (calls s) = []
  | L74 c =>
      m s !! t_key th = Some c ∧ heap s !! c = Some CallLock_init
      ∧ calls_for c (calls s) = []
  | L77 c | L78 c | L80 c _ | L81 c _ | L87 c | L88 c | L92 c | L93 c =>
      exec_ok t (t_key th) c s
  | _ => True
  end.

(** [state_ok s]: what every state reached from [SingleFlight_init] has. *)
Definition state_ok s : Prop :=
  all_threads (holds_lock (lock s)) s
  ∧ Forall (λ i, inv_cl i < length (heap s)) (calls s)
  ∧ all_threads (leader_ok s) s.

(** What the leader [tl] of record [l], with contents [r], who entered
    [call] with the frame [th0] and is now [th], has done so far. *)
Definition leading_at tl k l th0 s r th : Prop :=
  at_pc L53 th = at_pc L53 th0 ∧ t_key th = k ∧
  match t_pc th with
  | L77 c | L78 c | L80 c _ | L81 c _ | L87 c => c = l ∧ exec_ok tl k l s
  | L88 c | L92 c | L93 c => c = l ∧ ev r = true ∧ exec_ok tl k l s
  | L94 c | L95 c => c = l ∧ ev r = true
  | Done o => calls_for l (calls s) = [mk_inv tl l th0 o]
  | _ => False
  end.

(** [leading tl k l th0 s]: caller [tl], who entered [call] with the frame
    [th0], is on the leader path for key [k] with record [l], or has left
    [call] from there. *)
Definition leading tl k l th0 s : Prop :=
  rec_inv tl l s ∧ all_threads (holds_lock (lock s)) s ∧
  match heap s !! l, threads s !! tl with
  | Some r, Some th => leading_at tl k l th0 s r th
  | _, _ => False
  end.

(** Whoever [self.lock] says has acquired it is between lines 61 and 74, or
    93 and 94. *)
Definition lock_owned s : Prop :=
  match lock s with
  | Some t =>
      match threads s !! t with
      | Some th => in_cs (t_pc th) = true
      | None => False
      end
  | None => True
  end.

(** Every record was allocated by a caller that is about to register it
    (lines 73 and 74), or belongs to the execution some caller leads or has
    led. *)
Definition records_ok s : Prop :=
  ∀ l, l < length (heap s) →
    (∃ tl, rec_inv tl l s)
    ∨ (∃ t th, threads s !! t = Some th ∧ (t_pc th = L73 l ∨ t_pc th = L74 l)
         ∧ calls_for l (calls s) = []).

(** Program points after the caller has looked for its key (line 61). *)
Definition past_check p : bool :=
  match p with
  | L53 | L55 | L60 | L61 => false
  | _ => true
  end.

(** Every registered key is the key of a caller that has looked for it. *)
Definition keys_held s : Prop :=
  ∀ k c, m s !! k = Some c →
    ∃ t th, threads s !! t = Some th ∧ t_key th = k ∧ past_check (t_pc th) = true.

(** What holds in every state that a [SingleFlight] object and its callers
    reach, whatever the schedule. *)
Definition inv s : Prop :=
  state_ok s ∧ lock_owned s ∧ records_ok s ∧ keys_held s.

(** The record whose execution a caller at [p] leads: the operation is
    being invoked or has been, and the key is still to be removed (lines 77
    to 93). *)
Definition leads p : option nat :=
  match p with
  | L77 c | L78 c | L80 c _ | L81 c _ | L87 c | L88 c | L92 c | L93 c => Some c
  | _ => None
  end.

(** Program points of the leader path on which the caller's key is, or is
    about to be, registered (lines 72 to 93). *)
Definition on_leader_path p : bool :=
  match p with
  | L72 | L73 _ | L74 _ => true
  | _ => bool_decide (is_Some (leads p))
  end.

(** The callers as they enter [call]. *)
Definition entering (ths : list thread) : Prop :=
  Forall (λ th, t_pc th = L53) ths.

(** Program points of the follower path before the caller leaves [call]
    (lines 65 to 70). *)
Definition follows p : bool :=
  match p with
  | L65 | L66 | L66w _ | L68 | L69 | L70 => true
  | _ => false
  end.

(** The record of a leader that has fired the completion signal (lines 88
    to 95). *)
Definition late p : option nat :=
  match p with
  | L88 c | L92 c | L93 c | L94 c | L95 c => Some c
  | _ => None
  end.

(** A leader past line 87 has fired the completion signal of its record. *)
Definition late_ok s t th : Prop :=
  ∀ c, late (t_pc th) = Some c → rec_inv t c s ∧ fired c s.

(** How a caller that never took the follower path has left [call]: by one
    of the two checks, or with the outcome of the one invocation made for
    the record it created. *)
Definition own_outcome s t th : Prop :=
  match t_pc th with
  | Done o =>
      (is_str (t_key th) = false ∧ o = Raise (TypeError "Key should be a str"))
      ∨ (is_callable (t_fn th) = false ∧ o = Raise (TypeError "fn should be a callable"))
      ∨ ∃ l, rec_inv t l s ∧ calls_for l (calls s) = [mk_inv t l th o]
  | _ => True
  end.

(** No caller is, or was, on the follower path. *)
Definition all_lead s : Prop :=
  all_threads (λ _ th, follows (t_pc th) = false) s
  ∧ all_threads (late_ok s) s ∧ all_threads (own_outcome s) s.

(** The number of lines a caller that holds the lock still has to execute
    before it has released it. *)
Definition cs_left p : nat :=
  match p with
  | L61 => 4
  | L72 => 3
  | L73 _ | L93 _ => 2
  | L65 | L74 _ | L94 _ => 1
  | _ => 0
  end.

#[global] Instance recorded_dec tl l th r cs : Decision (recorded tl l th r cs).
Proof. unfold recorded. destruct (err r); apply _. Defined.

#[global] Instance abandoned_dec tl l th cs : Decision (abandoned tl l th cs).
Proof.
  unfold abandoned. destruct cs as [|i [|]]; try apply _.
  destruct (inv_result i); apply _.
Defined.

#[global] Instance completed_dec tl l th r cs : Decision (completed tl l th r cs).
Proof. unfold completed. destruct (ev r); apply _. Defined.

#[global] Instance leader_rec_dec tl l th r cs : Decision (leader_rec tl l th r cs).
Proof. unfold leader_rec. destruct (t_pc th); try case_decide; apply _. Defined.

#[global] Instance all_threads_dec P s :
  (∀ t th, Decision (P t th)) → Decision (all_threads P s).
Proof. intros ?. unfold all_threads. apply _. Defined.

#[global] Instance not_owner_dec tl l t th : Decision (not_owner tl l t th).
Proof. unfold not_owner. apply _. Defined.

#[global] Instance holds_lock_dec lk t th : Decision (holds_lock lk t th).
Proof. unfold holds_lock. apply _. Defined.

#[global] Instance key_claim_dec tl k l t th : Decision (key_claim tl k l t th).
Proof. unfold key_claim. destruct (t_pc th); apply _. Defined.

#[global] Instance rec_inv_dec tl l s : Decision (rec_inv tl l s).
Proof. unfold rec_inv. destruct (heap s !! l), (threads s !! tl); apply _. Defined.

#[global] Instance exec_ok_dec tl k l s : Decision (exec_ok tl k l s).
Proof. unfold exec_ok. apply _. Defined.

#[global] Instance follower_dec tf k l s : Decision (follower tf k l s).
Proof.
  unfold follower. destruct (heap s !! l), (threads s !! tf) as [th|]; try apply _.
  destruct (t_pc th); apply _.
Defined.

#[global] Instance fired_dec l s : Decision (fired l s).
Proof. unfold fired. destruct (heap s !! l); apply _. Defined.

#[global] Instance serves_dec k l r s : Decision (serves k l r s).
Proof. unfold serves. apply _. Defined.

#[global] Instance entering_dec ths : Decision (entering ths).
Proof. unfold entering. apply _. Defined.

End Invariants.

#[global] Typeclasses Opaque recorded abandoned completed leader_rec all_threads
  not_owner rec_inv holds_lock key_claim exec_ok follower fired serves.

(** ** Properties of every state along a schedule *)

Section Along.

Context {W : Type} (impl : nat → @op W).

(** [P] holds before every turn of the schedule and at its end. *)
Fixpoint along (P : @state W → Prop) (sched : list nat) (s : @state W) : Prop :=
  P s ∧
  match sched with
  | [] => True
  | t :: sched' => along P sched' (default s (step impl t s))
  end.

#[global] Instance along_dec P sched s :
  (∀ s', Decision (P s')) → Decision (along P sched s).
Proof. intros ?. revert s. induction sched; intros s; simpl; apply _. Defined.

End Along.

(** ** Example operations and callers *)

Definition ValueError (msg : string) : pyexn := PyExn "ValueError" (PStr msg) true true.
Definition KeyboardInterrupt : pyexn := PyExn "KeyboardInterrupt" PNone false true.

(** The world of the examples counts the invocations.  Function 0 returns
    the counter, function 1 raises [ValueError], function 2 raises
    [KeyboardInterrupt], every other function returns [None]. *)
Definition ops (f : nat) : @op nat :=
  λ _ _ w,
    match f with
    | 0 => (Return (PInt (Z.of_nat w)), S w)
    | 1 => (Raise (ValueError "boom"), S w)
    | 2 => (Raise KeyboardInterrupt, S w)
    | _ => (Return PNone, S w)
    end.

(** [n] callers of [call(fn, "k")] on a new [SingleFlight]. *)
Definition callers (fn : pyval) (n : nat) : @state nat :=
  SingleFlight_init (replicate n (call fn (PStr "k") [] ∅)) 0.

(** Caller 0 has registered record 0 and is about to invoke the operation
    (line 77); caller 1 has found the key and released the lock (line 66). *)
Definition in_flight (fn : pyval) (n : nat) : @state nat :=
  run ops (replicate 7 0 ++ replicate 5 1) (callers fn n).

(** The same once caller 0 has fired the completion signal and sleeps
    (line 88). *)
Definition fired_flight (fn : pyval) (n : nat) : @state nat :=
  run ops [0; 0; 0] (in_flight fn n).

(** An exception class that defines [__len__] to return 0: its instances
    are false as a condition. *)
Definition EmptyError : pyexn := PyExn "EmptyError" PNone true false.

(** Every function raises [EmptyError]. *)
Definition ops_falsy (f : nat) : @op nat :=
  λ _ _ w, (Raise EmptyError, S w).

(** Two callers of [call(fn, "a")] and [call(fn, "b")] on a new
    [SingleFlight]. *)
Definition two_keys (fn : pyval) : list thread :=
  [call fn (PStr "a") [] ∅; call fn (PStr "b") [] ∅].

Section Theory.

Context {W : Type} (impl : nat → @op W).
Implicit Types (s : @state W) (t tl tf l c : nat) (k : pyval).
Implicit Types (r : CallLock) (th : thread) (p : pc) (cs : list invocation).

Lemma all_threads_lookup P s :
  all_threads P s ↔ ∀ t th, threads s !! t = Some th → P t th.
Proof.
  unfold all_threads. rewrite Forall_lookup. split.
  - intros H t th Hth. apply (H t (t, th)). by rewrite list_lookup_imap, Hth.
  - intros H t [t' th]. rewrite list_lookup_imap.
    destruct (threads s !! t) eqn:E; intros [= <- <-]. by apply H.
Qed.

Ltac step_inv H :=
  unfold step in H;
  match type of H with
  | (?o ≫= _) = _ => let th := fresh "th" in let Hth := fresh "Hth" in
                     destruct o as [th|] eqn:Hth; simpl in H; [|done]
  end;
  unfold exec_line in H;
  match goal with
  | Hth : threads _ !! _ = Some ?th |- _ =>
      let Hpc := fresh "Hpc" in
      destruct (t_pc th) eqn:Hpc; simpl in H; unfold acquire, release in H
  end;
  simplify_eq/=;
  repeat (first
    [ case_match
    | match goal with
      | H : (?o ≫= _) = Some _ |- _ => destruct o eqn:?
      end ];
    simplify_eq/=).

Lemma all_threads_alter (P Q : nat → thread → Prop) s s' t th p' :
  threads s' = alter (at_pc p') t (threads s) →
  threads s !! t = Some th →
  all_threads P s →
  (P t th → Q t (at_pc p' th)) →
  (∀ t' th', t' ≠ t → threads s !! t' = Some th' → P t' th' → Q t' th') →
  all_threads Q s'.
Proof.
  rewrite !all_threads_lookup. intros -> Hth HP Ht Ho t' th'.
  destruct (decide (t' = t)) as [->|Hne].
  - rewrite list_lookup_alter_eq, Hth. intros [= <-]. eauto.
  - rewrite list_lookup_alter_ne by done. eauto.
Qed.

Lemma holds_lock_step t s s' :
  all_threads (holds_lock (lock s)) s → step impl t s = Some s' →
  all_threads (holds_lock (lock s')) s'.
Proof.
  intros Hm H.
  step_inv H; pose proof (proj1 (all_threads_lookup _ _) Hm _ _ Hth) as Ht;
    unfold holds_lock in Ht; rewrite Hpc in Ht; simpl in Ht;
    (eapply all_threads_alter; [reflexivity|exact Hth|exact Hm|..]);
    unfold holds_lock; simpl; try done.
  all: try (intros _ t' th' Hne _ Hin Hcs; specialize (Hin Hcs); naive_solver).
  all: intros t' th' Hne _ Hin Hcs; specialize (Hin Hcs); naive_solver.
Qed.
Lemma calls_for_snoc l cs i :
  calls_for l (cs ++ [i]) = calls_for l cs ++ (if decide (inv_cl i = l) then [i] else []).
Proof.
  unfold calls_for. by rewrite filter_app.
Qed.

(** What a step of thread [t] leaves alone. *)
Lemma step_frame t s s' th :
  threads s !! t = Some th → step impl t s = Some s' →
  ∃ p', threads s' = alter (at_pc p') t (threads s)
    ∧ (∀ c, pre_owns p' = Some c →
         pre_owns (t_pc th) = Some c ∨ (t_pc th = L72 ∧ c = length (heap s)))
    ∧ (∀ l r, pre_owns (t_pc th) ≠ Some l → heap s !! l = Some r → heap s' !! l = Some r)
    ∧ (∀ l, pre_owns (t_pc th) ≠ Some l → calls_for l (calls s') = calls_for l (calls s)).
Proof.
  intros Hth' H. step_inv H; eexists; (split; [reflexivity|]); simpl;
    rewrite ?Hpc; simpl; (split; [naive_solver|]); (split; [|try done]).
  all: try (intros l r' Hne Hr; first
    [ done
    | by apply lookup_app_l_Some
    | by rewrite list_lookup_alter_ne by congruence ]).
  all: intros l Hne; rewrite calls_for_snoc; case_decide; [|by rewrite app_nil_r].
  all: simpl in *; congruence.
Qed.
Lemma rec_inv_elim tl l s :
  rec_inv tl l s →
  ∃ r th, heap s !! l = Some r ∧ threads s !! tl = Some th
    ∧ leader_rec tl l th r (calls_for l (calls s))
    ∧ ∀ t th', threads s !! t = Some th' → t ≠ tl → pre_owns (t_pc th') ≠ Some l.
Proof.
  unfold rec_inv. destruct (heap s !! l) as [r|], (threads s !! tl) as [th|]; try done.
  intros [? Hn]. exists r, th. split_and!; try done.
  intros t th' ??. by eapply (proj1 (all_threads_lookup _ _) Hn).
Qed.

Lemma rec_inv_intro tl l s r th :
  heap s !! l = Some r → threads s !! tl = Some th →
  leader_rec tl l th r (calls_for l (calls s)) →
  all_threads (not_owner tl l) s →
  rec_inv tl l s.
Proof. unfold rec_inv. by intros -> -> ??. Qed.

(** Steps of threads other than the leader keep the invariant of a record. *)
Lemma rec_inv_step_other tl l t s s' :
  rec_inv tl l s → t ≠ tl → step impl t s = Some s' → rec_inv tl l s'.
Proof.
  intros Hinv Hne Hstep.
  destruct (threads s !! t) as [th|] eqn:Hth; [|by unfold step in Hstep; rewrite Hth in Hstep].
  pose proof Hinv as (r & thl & Hr & Hthl & Hl & Hown)%rec_inv_elim.
  destruct (step_frame _ _ _ _ Hth Hstep) as (p' & Hths & Hpre & Hheap & Hcalls).
  pose proof (Hown _ _ Hth Hne) as Ht.
  apply (rec_inv_intro _ _ _ r thl).
  - by apply Hheap.
  - by rewrite Hths, list_lookup_alter_ne.
  - by rewrite Hcalls.
  - unfold rec_inv in Hinv. rewrite Hr, Hthl in Hinv. destruct Hinv as [_ Hall].
    eapply all_threads_alter; [done..| |done].
    intros _ _ Hc. simpl in Hc. apply Hpre in Hc as [Hc|[_ ->]]; [done|].
    apply lookup_lt_Some in Hr. lia.
Qed.
Lemma completed_at_pc tl l p th r cs :
  completed tl l (at_pc p th) r cs = completed tl l th r cs.
Proof. reflexivity. Qed.

(** Steps of the leader keep the invariant of its record. *)
Lemma rec_inv_step_leader tl l s s' :
  rec_inv tl l s → step impl tl s = Some s' → rec_inv tl l s'.
Proof.
  intros Hinv Hstep.
  pose proof Hinv as (r & thl & Hr & Hthl & Hl & Hown)%rec_inv_elim.
  assert (∀ s1 p', threads s1 = alter (at_pc p') tl (threads s) →
                   all_threads (not_owner tl l) s1) as Hno.
  { intros s1 p' Hs1. unfold rec_inv in Hinv. rewrite Hr, Hthl in Hinv.
    destruct Hinv as [_ Hall].
    eapply all_threads_alter; [done..| |done]. by intros _ ?. }
  step_inv Hstep; unfold leader_rec in Hl; rewrite Hpc in Hl;
    try match goal with
        | H : t_pc _ = ?p |- _ =>
            match p with
            | context [?c] => is_var c; match type of c with nat => idtac end;
                              destruct (decide (c = l)) as [->|]
            end
        end;
    (eapply rec_inv_intro;
     [ simpl; first
         [ exact Hr
         | apply lookup_app_l_Some, Hr
         | rewrite list_lookup_alter_eq, Hr; reflexivity
         | rewrite list_lookup_alter_ne by done; exact Hr ]
     | simpl; rewrite list_lookup_alter_eq, Hth; reflexivity
     | 
     | eapply Hno; simpl; reflexivity ]);
    unfold leader_rec; simpl;
    rewrite ?calls_for_snoc; simpl;
    repeat case_decide; simplify_eq/=; rewrite ?app_nil_r, ?completed_at_pc;
    try done; try (destruct_and?; done).
  all: try (split; [apply lookup_lt_Some in Hr; lia | by destruct_and?]).
  all: unfold completed, recorded, abandoned, outcome_in, mk_inv in *; simpl in *.
  all: destruct_and?;
    repeat match goal with H : calls_for _ _ = _ |- _ => rewrite H; clear H end;
    repeat match goal with H : ev _ = _ |- _ => rewrite H in *; clear H end;
    simpl; try done.
  all: simplify_eq/=; repeat case_match; simplify_eq/=; naive_solver.
Qed.
Lemma rec_inv_step tl l t s s' :
  rec_inv tl l s → step impl t s = Some s' → rec_inv tl l s'.
Proof.
  destruct (decide (t = tl)) as [->|];
    eauto using rec_inv_step_leader, rec_inv_step_other.
Qed.

Lemma rec_inv_run tl l sched s :
  rec_inv tl l s → rec_inv tl l (run impl sched s).
Proof.
  revert s. induction sched as [|t sched IH]; intros s Hinv; simpl; [done|].
  apply IH. destruct (step impl t s) eqn:E; simpl; eauto using rec_inv_step.
Qed.

(** A leader that still has to write to its record has not fired the
    completion signal. *)
Lemma leader_rec_owner tl l th r cs :
  leader_rec tl l th r cs → pre_owns (t_pc th) = Some l → ev r = false.
Proof.
  unfold leader_rec. destruct (t_pc th); simpl; intros Hl [= ->];
    rewrite ?decide_True in Hl by done; naive_solver.
Qed.

(** Once the completion signal has fired the record never changes. *)
Lemma fired_stable_step tl l t s s' r :
  rec_inv tl l s → heap s !! l = Some r → ev r = true →
  step impl t s = Some s' → heap s' !! l = Some r.
Proof.
  intros (r' & thl & Hr & Hthl & Hl & Hown)%rec_inv_elim Hr' Hev Hstep.
  simplify_eq.
  destruct (threads s !! t) as [th|] eqn:Hth; [|by unfold step in Hstep; rewrite Hth in Hstep].
  destruct (step_frame _ _ _ _ Hth Hstep) as (p' & _ & _ & Hheap & _).
  apply Hheap; [|done]. intros Hp.
  destruct (decide (t = tl)) as [->|Hne]; [|by eapply Hown].
  simplify_eq. apply (leader_rec_owner _ _ _ _ _ Hl) in Hp. congruence.
Qed.


(** What a step does to the registry. *)
Lemma step_frame_m t s s' th k :
  threads s !! t = Some th → step impl t s = Some s' →
  m s' !! k = m s !! k
  ∨ (t_key th = k ∧
     ((∃ c, t_pc th = L73 c ∧ m s' !! k = Some c)
      ∨ (∃ c, t_pc th = L93 c ∧ is_Some (m s !! k) ∧ m s' !! k = None))).
Proof.
  intros Hth' H. step_inv H; try (by left).
  - destruct (decide (t_key th = k)) as [<-|].
    + right. split; [done|]. left. eexists. by rewrite lookup_insert_eq.
    + left. by rewrite lookup_insert_ne.
  - destruct (decide (t_key th = k)) as [<-|].
    + right. split; [done|]. right. eexists. by rewrite lookup_delete_eq.
    + left. by rewrite lookup_delete_ne.
Qed.
Lemma key_claim_step tl k l t s s' :
  all_threads (key_claim tl k l) s → m s !! k = Some l →
  step impl t s = Some s' → all_threads (key_claim tl k l) s'.
Proof.
  intros Hk Hm H.
  step_inv H; pose proof (proj1 (all_threads_lookup _ _) Hk _ _ Hth) as Ht;
    (eapply all_threads_alter; [reflexivity|exact Hth|exact Hk| |done]);
    unfold key_claim in *; rewrite Hpc in *; simpl; intros; simplify_eq; naive_solver.
Qed.

Lemma exec_ok_step_or tl k l t s s' :
  exec_ok tl k l s → step impl t s = Some s' →
  exec_ok tl k l s' ∨ (t = tl ∧ m s' !! k = None).
Proof.
  intros (Hrec & Hm & Hlock & Hkey) Hstep.
  destruct (threads s !! t) as [th|] eqn:Hth; [|by unfold step in Hstep; rewrite Hth in Hstep].
  pose proof (proj1 (all_threads_lookup _ _) Hkey _ _ Hth) as Ht.
  destruct (step_frame_m _ _ _ _ k Hth Hstep) as [Hsame|[Hk [(c & Hpc & _)|(c & Hpc & _ & ?)]]].
  - left. split_and!; eauto using rec_inv_step, holds_lock_step, key_claim_step.
    congruence.
  - unfold key_claim in Ht. rewrite Hpc in Ht. by destruct Ht.
  - right. unfold key_claim in Ht. rewrite Hpc in Ht. by destruct Ht.
Qed.

Lemma exec_ok_step tl k l t s s' :
  exec_ok tl k l s → step impl t s = Some s' →
  exec_ok tl k l s' ∨ m s' !! k = None.
Proof.
  intros Hok Hstep. destruct (exec_ok_step_or _ _ _ _ _ _ Hok Hstep) as [|[_ ?]]; auto.
Qed.
(** A record that is no longer registered under [k] is never registered
    under [k] again. *)
Lemma unregistered_step tl k l t s s' :
  rec_inv tl l s → m s !! k ≠ Some l → step impl t s = Some s' → m s' !! k ≠ Some l.
Proof.
  intros (r & thl & Hr & Hthl & Hl & Hown)%rec_inv_elim Hm Hstep.
  destruct (threads s !! t) as [th|] eqn:Hth; [|by unfold step in Hstep; rewrite Hth in Hstep].
  destruct (step_frame_m _ _ _ _ k Hth Hstep) as [Hsame|[Hk [(c & Hpc & ->)|(c & _ & _ & ->)]]];
    [congruence| |done].
  intros [= ->]. destruct (decide (t = tl)) as [->|Hne].
  - simplify_eq. unfold leader_rec in Hl. rewrite Hpc in Hl. by destruct Hl.
  - apply (Hown _ _ Hth Hne). by rewrite Hpc.
Qed.

Lemma unregistered_run tl k l sched s :
  rec_inv tl l s → m s !! k ≠ Some l → m (run impl sched s) !! k ≠ Some l.
Proof.
  revert s. induction sched as [|t sched IH]; intros s Hinv Hm; simpl; [done|].
  destruct (step impl t s) eqn:E; simpl; [|by apply IH].
  apply IH; eauto using rec_inv_step, unregistered_step.
Qed.

Lemma exec_ok_rec_inv tl k l s : exec_ok tl k l s → rec_inv tl l s.
Proof. by intros [? _]. Qed.

(** While the record is registered the execution stays in order. *)
Lemma exec_ok_step_registered tl k l t sched s s' :
  exec_ok tl k l s → step impl t s = Some s' →
  m (run impl sched s') !! k = Some l → exec_ok tl k l s'.
Proof.
  intros Hok Hstep Hreg.
  destruct (exec_ok_step _ _ _ _ _ _ Hok Hstep) as [|Hnone]; [done|].
  exfalso. eapply (unregistered_run tl k l sched s'); [|by rewrite Hnone|done].
  eauto using rec_inv_step, exec_ok_rec_inv.
Qed.

Lemma exec_ok_run tl k l sched s :
  exec_ok tl k l s → m (run impl sched s) !! k = Some l →
  exec_ok tl k l (run impl sched s).
Proof.
  revert s. induction sched as [|t sched IH]; intros s Hok Hreg; simpl in *; [done|].
  destruct (step impl t s) eqn:E; simpl in *; [|by apply IH].
  apply IH; eauto using exec_ok_step_registered.
Qed.
Lemma exec_ok_elim tl k l s t th :
  exec_ok tl k l s → threads s !! t = Some th →
  m s !! k = Some l ∧ holds_lock (lock s) t th ∧ key_claim tl k l t th.
Proof.
  intros (_ & Hm & Hlock & Hkey) Hth. split_and!; [done|..]; by eapply all_threads_lookup.
Qed.

(** A follower's own step, while the record is registered. *)
Lemma follower_step_own tf k l s s' :
  m s !! k = Some l →
  (∀ th, threads s !! tf = Some th → holds_lock (lock s) tf th) →
  follower tf k l s → step impl tf s = Some s' → follower tf k l s'.
Proof.
  intros Hm Hlock Hf Hstep.
  step_inv Hstep; specialize (Hlock _ eq_refl);
    unfold follower, holds_lock in *; simpl;
    destruct (heap s !! l) as [r|] eqn:Hr; try done;
    rewrite Hth, Hpc in *; rewrite list_lookup_alter_eq, Hth; simpl;
    destruct Hf as [Hk Hf]; simplify_eq/=; try done;
    try (split; [done|]).
  all: try (destruct Hf; congruence).
  all: try congruence.
  all: unfold follower_outcome, truthy in *; repeat case_match; naive_solver.
Qed.

Lemma follower_step_self tl tf k l s s' :
  exec_ok tl k l s → follower tf k l s → step impl tf s = Some s' → follower tf k l s'.
Proof.
  intros Hok. apply follower_step_own.
  - by destruct Hok as (_ & ? & _).
  - intros th Hth. by destruct (exec_ok_elim _ _ _ _ _ _ Hok Hth) as (_ & ? & _).
Qed.

(** A follower is not disturbed by the steps of other threads. *)
Lemma follower_step_other tl tf k l t s s' :
  exec_ok tl k l s → follower tf k l s → t ≠ tf → step impl t s = Some s' →
  follower tf k l s'.
Proof.
  intros Hok Hf Hne Hstep.
  pose proof (exec_ok_rec_inv _ _ _ _ Hok) as Hrec.
  pose proof (rec_inv_step _ _ _ _ _ Hrec Hstep) as (r' & _ & Hr' & _)%rec_inv_elim.
  destruct (threads s !! t) as [th|] eqn:Hth; [|by unfold step in Hstep; rewrite Hth in Hstep].
  destruct (step_frame _ _ _ _ Hth Hstep) as (p' & Hths & _).
  unfold follower in *. rewrite Hr', Hths, list_lookup_alter_ne by done.
  destruct (heap s !! l) as [r|] eqn:Hr; [|done].
  destruct (threads s !! tf) as [thf|]; [|done].
  destruct (decide (ev r = true)) as [Hev|Hev].
  - rewrite (fired_stable_step _ _ _ _ _ _ Hrec Hr Hev Hstep) in Hr'. by simplify_eq.
  - destruct Hf as [Hk Hf]. split; [done|]. destruct (t_pc thf); naive_solver.
Qed.

Lemma follower_step tl tf k l t s s' :
  exec_ok tl k l s → follower tf k l s → step impl t s = Some s' → follower tf k l s'.
Proof.
  destruct (decide (t = tf)) as [->|];
    eauto using follower_step_self, follower_step_other.
Qed.
Lemma fired_step tl l t s s' :
  rec_inv tl l s → fired l s → step impl t s = Some s' → fired l s'.
Proof.
  unfold fired. intros Hrec Hf Hstep.
  destruct (heap s !! l) as [r|] eqn:Hr; [|done].
  by rewrite (fired_stable_step _ _ _ _ _ _ Hrec Hr Hf Hstep).
Qed.

(** After the signal has fired a follower that has found its key is never
    blocked, and each of its steps brings it closer to the end of [call]. *)
Lemma follower_progress_own tf k l s th :
  m s !! k = Some l → holds_lock (lock s) tf th →
  follower tf k l s → fired l s →
  threads s !! tf = Some th → attached (t_pc th) = true →
  todo (t_pc th) = 0
  ∨ ∃ s' p', step impl tf s = Some s' ∧ threads s' !! tf = Some (at_pc p' th)
      ∧ attached p' = true ∧ in_cs p' = false ∧ todo p' < todo (t_pc th).
Proof.
  intros Hm Hlock Hf Hfired Hth Hat.
  unfold follower, fired, holds_lock in *. rewrite Hth in Hf.
  destruct (heap s !! l) as [r|] eqn:Hr; [|done]. destruct Hf as [Hk Hf].
  unfold step. rewrite Hth. simpl. unfold exec_line.
  destruct (t_pc th) eqn:Hpc; try done; simpl; [right..|by left];
    unfold release; rewrite ?Hk, ?Hm, ?Hlock by done; subst; simpl; rewrite ?Hr; simpl;
    rewrite ?Hfired; do 2 eexists; (split; [reflexivity|]); simpl;
    rewrite list_lookup_alter_eq, Hth; simpl; split_and!; try done; try lia.
  all: destruct (truthy (err r)); simpl; try done; lia.
Qed.

Lemma follower_progress tl tf k l s th :
  exec_ok tl k l s → follower tf k l s → fired l s →
  threads s !! tf = Some th → attached (t_pc th) = true →
  todo (t_pc th) = 0
  ∨ ∃ s' p', step impl tf s = Some s' ∧ threads s' !! tf = Some (at_pc p' th)
      ∧ attached p' = true ∧ todo p' < todo (t_pc th).
Proof.
  intros Hok Hf Hfired Hth Hat.
  destruct (exec_ok_elim _ _ _ _ _ _ Hok Hth) as (Hm & Hlock & _).
  destruct (follower_progress_own _ _ _ _ _ Hm Hlock Hf Hfired Hth Hat)
    as [?|(s' & p' & ? & ? & ? & _ & ?)]; [by left|right; eauto 10].
Qed.

Lemma turns_cons_eq t sched : turns t (t :: sched) = S (turns t sched).
Proof. unfold turns. by rewrite filter_cons_True. Qed.

Lemma turns_cons_ne t t' sched : t' ≠ t → turns t (t' :: sched) = turns t sched.
Proof. intros. unfold turns. by rewrite filter_cons_False. Qed.

(** Every turn given to such a follower is a line executed. *)
Lemma follower_todo_run tl tf k l sched s th :
  exec_ok tl k l s → follower tf k l s → fired l s →
  threads s !! tf = Some th → attached (t_pc th) = true →
  m (run impl sched s) !! k = Some l →
  ∃ th', threads (run impl sched s) !! tf = Some th' ∧ attached (t_pc th') = true
    ∧ todo (t_pc th') ≤ todo (t_pc th) - turns tf sched.
Proof.
  revert s th. induction sched as [|t sched IH]; intros s th Hok Hf Hfired Hth Hat Hreg.
  { exists th. simpl. split_and!; try done. unfold turns. simpl. lia. }
  simpl in *. destruct (decide (t = tf)) as [->|Hne].
  - rewrite turns_cons_eq.
    destruct (follower_progress _ _ _ _ _ _ Hok Hf Hfired Hth Hat)
      as [Hz|(s' & p' & Hstep & Hth' & Hat' & Hlt)].
    + destruct (step impl tf s) as [s'|] eqn:Hstep; simpl in *.
      * destruct (step_frame _ _ _ _ Hth Hstep) as (p' & Hths & _).
        assert (threads s' !! tf = Some th) as Hth'.
        { rewrite Hths, list_lookup_alter_eq, Hth. simpl.
          clear -Hz Hat Hstep Hth. unfold step in Hstep. rewrite Hth in Hstep. simpl in Hstep.
          unfold exec_line in Hstep. destruct (t_pc th); try done. }
        destruct (IH s' th) as (th' & ? & ? & ?);
          eauto using exec_ok_step_registered, follower_step, fired_step, exec_ok_rec_inv.
        exists th'. split_and!; try done. lia.
      * destruct (IH s th) as (th' & ? & ? & ?); try done.
        exists th'. split_and!; try done. lia.
    + rewrite Hstep in *. simpl in *.
      destruct (IH s' (at_pc p' th)) as (th' & ? & ? & ?);
        eauto using exec_ok_step_registered, follower_step, fired_step, exec_ok_rec_inv.
      exists th'. split_and!; try done. simpl in *. lia.
  - rewrite turns_cons_ne by done.
    destruct (step impl t s) as [s'|] eqn:Hstep; simpl in *; [|by apply IH].
    destruct (threads s !! t) as [tht|] eqn:Htht;
      [|by unfold step in Hstep; rewrite Htht in Hstep].
    destruct (step_frame _ _ _ _ Htht Hstep) as (p' & Hths & _).
    apply IH;
      eauto using exec_ok_step_registered, follower_step, fired_step, exec_ok_rec_inv.
    by rewrite Hths, list_lookup_alter_ne.
Qed.

Lemma attached_todo_done p : attached p = true → todo p = 0 → ∃ o, p = Done o.
Proof. destruct p; try done. eauto. Qed.
Ltac solo_cbn :=
  cbn [exec_line acquire release
       lock m heap threads world calls call
       t_pc t_key t_fn t_args t_kwargs at_pc
       mbind option_bind fmap option_fmap option_map default from_option id
       is_callable is_str invoke ev res err set_res set_err set_ev].

Lemma run_nil' s : run impl [] s = s.
Proof. reflexivity. Qed.

Lemma run_cons t sched s :
  run impl (t :: sched) s = run impl sched (default s (step impl t s)).
Proof. reflexivity. Qed.

Lemma run_app sched1 sched2 s :
  run impl (sched1 ++ sched2) s = run impl sched2 (run impl sched1 s).
Proof. revert s. induction sched1 as [|t sched1 IH]; intros s; simpl; [done|]. apply IH. Qed.

Lemma goto_mk t p lk (mm : gmap pyval nat) hp ths (w : W) cs :
  goto t p (MkState lk mm hp ths w cs) = MkState lk mm hp (alter (at_pc p) t ths) w cs.
Proof. reflexivity. Qed.

Lemma with_lock_mk o lk (mm : gmap pyval nat) hp ths (w : W) cs :
  with_lock o (MkState lk mm hp ths w cs) = MkState o mm hp ths w cs.
Proof. reflexivity. Qed.

Lemma with_m_mk mm' lk (mm : gmap pyval nat) hp ths (w : W) cs :
  with_m mm' (MkState lk mm hp ths w cs) = MkState lk mm' hp ths w cs.
Proof. reflexivity. Qed.

Lemma with_heap_mk hp' lk (mm : gmap pyval nat) hp ths (w : W) cs :
  with_heap hp' (MkState lk mm hp ths w cs) = MkState lk mm hp' ths w cs.
Proof. reflexivity. Qed.

Lemma with_call_mk w' i lk (mm : gmap pyval nat) hp ths (w : W) cs :
  with_call w' i (MkState lk mm hp ths w cs) = MkState lk mm hp ths w' (cs ++ [i]).
Proof. reflexivity. Qed.

Lemma alter_at_pc_twice p q t (ths : list thread) :
  alter (at_pc p) t (alter (at_pc q) t ths) = alter (at_pc p) t ths.
Proof. rewrite list_alter_alter_eq. by apply list_alter_ext. Qed.

Lemma alter_insert (f : CallLock → CallLock) (h : list CallLock) l r :
  h !! l = Some r → alter f l h = <[l := f r]> h.
Proof.
  intros Hr. apply list_eq. intros i. destruct (decide (i = l)) as [->|].
  - rewrite list_lookup_alter_eq, Hr, list_lookup_insert_eq; [done|].
    by eapply lookup_lt_Some.
  - by rewrite list_lookup_alter_ne, list_lookup_insert_ne.
Qed.

Lemma insert_insert_heap (h : list CallLock) l r r' :
  <[l := r']> (<[l := r]> h) = <[l := r']> h.
Proof. apply list_insert_insert_eq. Qed.

(** Bring a state written with [goto] and the like to the form
    [MkState ...]. *)
Ltac norm_state :=
  repeat first
    [ rewrite goto_mk | rewrite with_lock_mk | rewrite with_m_mk
    | rewrite with_heap_mk | rewrite with_call_mk | rewrite alter_at_pc_twice ].

(** One turn of thread [t] in a state of the form [MkState ...], where [Hth]
    tells the frame of [t] in the list of threads the run started from. *)
Ltac solo_step Hth :=
  rewrite run_cons; unfold step at 1; cbn [threads];
  rewrite ?list_lookup_alter_eq, Hth; solo_cbn; norm_state.

(** A caller alone: the argument checks (lines 53 to 56). *)
Lemma validate_solo t s fn key args kwargs :
  threads s !! t = Some (call fn key args kwargs) →
  run impl [t; t] s =
    goto t (if is_str key
            then if is_callable fn then L60
                 else Done (Raise (TypeError "fn should be a callable"))
            else Done (Raise (TypeError "Key should be a str"))) s.
Proof.
  destruct s as [lk mm hp ths w cs]. cbn [threads]. intros Hth.
  solo_step Hth. destruct (is_str key); norm_state.
  - solo_step Hth. destruct (is_callable fn); by norm_state.
  - solo_step Hth. by norm_state.
Qed.

(** A caller alone, key not registered: lines 53 to 74. *)
Lemma enter_solo t s f key args kwargs :
  threads s !! t = Some (call (PFun f) key args kwargs) → is_str key = true →
  lock s = None → m s !! key = None →
  run impl (replicate 7 t) s =
    MkState None (<[key := length (heap s)]> (m s)) (heap s ++ [CallLock_init])
      (alter (at_pc (L77 (length (heap s)))) t (threads s)) (world s) (calls s).
Proof.
  destruct s as [lk mm hp ths w cs]. cbn [lock m heap threads world calls].
  intros Hth Hstr -> Hm. cbn [replicate].
  solo_step Hth. rewrite Hstr. norm_state.
  solo_step Hth.
  solo_step Hth.
  solo_step Hth. rewrite Hm. norm_state.
  solo_step Hth.
  solo_step Hth.
  solo_step Hth.
  by rewrite run_nil'.
Qed.

(** The leader alone, from line 77 to the end of [call], when the operation
    returns or raises an [Exception]. *)
Lemma complete_solo t s th l r o w' :
  threads s !! t = Some th → t_pc th = L77 l →
  lock s = None → m s !! t_key th = Some l → heap s !! l = Some r → ev r = false →
  invoke impl (t_fn th) (t_args th) (t_kwargs th) (world s) = (o, w') →
  caught o = true →
  run impl (replicate 9 t) s =
    MkState None (delete (t_key th) (m s)) (<[l := slots_of o]> (heap s))
      (alter (at_pc (Done o)) t (threads s)) w'
      (calls s ++ [MkInvocation t l (t_key th) (t_fn th) (t_args th) (t_kwargs th) o]).
Proof.
  destruct s as [lk mm hp ths w cs]. cbn [lock m heap threads world calls].
  intros Hth Hpc -> Hm Hr Hev Hop Hc. cbn [replicate].
  assert (l < length hp) as Hl by (by eapply lookup_lt_Some).
  rewrite run_cons; unfold step at 1; cbn [threads]; rewrite Hth; cbn [mbind option_bind].
  unfold exec_line. rewrite Hpc. solo_cbn. rewrite Hop.
  destruct o as [v|e]; simpl in Hc; rewrite ?Hc; solo_cbn; norm_state.
  - rewrite (alter_insert _ _ _ _ Hr).
    solo_step Hth.
    rewrite (alter_insert _ _ l (set_res v r)) by (by apply list_lookup_insert_eq).
    rewrite insert_insert_heap.
    solo_step Hth.
    rewrite (alter_insert _ _ l (set_err None (set_res v r)))
      by (by apply list_lookup_insert_eq).
    rewrite insert_insert_heap.
    solo_step Hth.
    solo_step Hth.
    solo_step Hth. rewrite Hm. solo_cbn. norm_state.
    solo_step Hth.
    solo_step Hth. rewrite list_lookup_insert_eq by done. solo_cbn. norm_state.
    solo_step Hth. rewrite run_nil'. unfold set_ev, set_err, set_res. cbn [ev res err].
    done.
  - solo_step Hth. rewrite (alter_insert _ _ _ _ Hr).
    solo_step Hth.
    rewrite (alter_insert _ _ l (set_res PNone r)) by (by apply list_lookup_insert_eq).
    rewrite insert_insert_heap.
    solo_step Hth.
    rewrite (alter_insert _ _ l (set_err (Some e) (set_res PNone r)))
      by (by apply list_lookup_insert_eq).
    rewrite insert_insert_heap.
    solo_step Hth.
    solo_step Hth.
    solo_step Hth. rewrite Hm. solo_cbn. norm_state.
    solo_step Hth.
    solo_step Hth. rewrite list_lookup_insert_eq by done. solo_cbn. norm_state.
    rewrite run_nil'. unfold set_ev, set_err, set_res. cbn [ev res err].
    done.
Qed.

(** The leader alone at line 77 when the operation raises an exception that
    is not an [Exception]: nothing catches it. *)
Lemma abandon_solo t s th l e w' :
  threads s !! t = Some th → t_pc th = L77 l →
  invoke impl (t_fn th) (t_args th) (t_kwargs th) (world s) = (Raise e, w') →
  exn_is_Exception e = false →
  step impl t s =
    Some (MkState (lock s) (m s) (heap s) (alter (at_pc (Done (Raise e))) t (threads s)) w'
           (calls s ++ [MkInvocation t l (t_key th) (t_fn th) (t_args th) (t_kwargs th)
                          (Raise e)])).
Proof.
  destruct s as [lk mm hp ths w cs]. cbn [lock m heap threads world calls].
  intros Hth Hpc Hop He. unfold step. cbn [threads]. rewrite Hth. cbn [mbind option_bind].
  unfold exec_line. rewrite Hpc. solo_cbn. rewrite Hop, He. by norm_state.
Qed.

Lemma replicate_split (n k : nat) (t : nat) :
  k ≤ n → replicate n t = replicate k t ++ replicate (n - k) t.
Proof. intros. rewrite <-replicate_add. f_equal. lia. Qed.

(** A whole call alone, key not registered, when the operation returns or
    raises an [Exception]. *)
Lemma leader_solo t s f key args kwargs o w' :
  threads s !! t = Some (call (PFun f) key args kwargs) → is_str key = true →
  lock s = None → m s !! key = None →
  impl f args kwargs (world s) = (o, w') → caught o = true →
  run impl (replicate 16 t) s =
    MkState None (m s) (heap s ++ [slots_of o])
      (alter (at_pc (Done o)) t (threads s)) w'
      (calls s ++ [MkInvocation t (length (heap s)) key (PFun f) args kwargs o]).
Proof.
  intros Hth Hstr Hlock Hm Hop Hc.
  rewrite (replicate_split 16 7) by lia. cbn [Nat.sub].
  rewrite run_app, (enter_solo _ _ _ _ _ _ Hth Hstr Hlock Hm).
  erewrite (complete_solo _ _ (at_pc (L77 (length (heap s))) (call (PFun f) key args kwargs))
              (length (heap s)) CallLock_init o w'); try done.
  - cbn [lock m heap threads world calls at_pc call t_key t_fn t_args t_kwargs].
    f_equal.
    + by apply delete_insert_id.
    + rewrite <-(Nat.add_0_r (length (heap s))). by rewrite insert_app_r.
    + apply alter_at_pc_twice.
  - cbn [threads]. by rewrite list_lookup_alter_eq, Hth.
  - cbn [m at_pc call t_key]. by rewrite lookup_insert_eq.
  - cbn [heap]. by apply list_lookup_middle.
Qed.

Lemma result_of_goto t o s th :
  threads s !! t = Some th → result_of t (goto t (Done o) s) = Some o.
Proof.
  intros Hth. unfold result_of. cbn [threads goto].
  by rewrite list_lookup_alter_eq, Hth.
Qed.

(** A caller that has left [call] takes no more steps. *)
Lemma done_stuck t o n s :
  result_of t s = Some o → run impl (replicate n t) s = s.
Proof.
  intros Hres. induction n as [|n IH]; [done|].
  cbn [replicate]. rewrite run_cons.
  unfold result_of in Hres. unfold step.
  destruct (threads s !! t) as [th|]; simpl in *; [|done].
  unfold exec_line. by destruct (t_pc th).
Qed.


(** A whole call alone, key not registered, whatever the operation does. *)
Lemma call_solo t s f key args kwargs o w' n :
  threads s !! t = Some (call (PFun f) key args kwargs) → is_str key = true →
  lock s = None → m s !! key = None →
  impl f args kwargs (world s) = (o, w') → 16 ≤ n →
  run impl (replicate n t) s =
    MkState None
      (if caught o then m s else <[key := length (heap s)]> (m s))
      (heap s ++ [if caught o then slots_of o else CallLock_init])
      (alter (at_pc (Done o)) t (threads s)) w'
      (calls s ++ [MkInvocation t (length (heap s)) key (PFun f) args kwargs o]).
Proof.
  intros Hth Hstr Hlock Hm Hop Hn.
  destruct (caught o) eqn:Hc.
  - rewrite (replicate_split n 16) by done. rewrite run_app.
    rewrite (leader_solo _ _ _ _ _ _ _ _ Hth Hstr Hlock Hm Hop Hc).
    eapply done_stuck. unfold result_of. cbn [threads].
    by rewrite list_lookup_alter_eq, Hth.
  - destruct o as [v|e]; [done|]. simpl in Hc.
    rewrite (replicate_split n 7) by lia. rewrite run_app.
    rewrite (enter_solo _ _ _ _ _ _ Hth Hstr Hlock Hm).
    destruct (n - 7) as [|n'] eqn:Hn'; [lia|]. cbn [replicate]. rewrite run_cons.
    erewrite (abandon_solo _ _ (at_pc (L77 (length (heap s))) (call (PFun f) key args kwargs)));
      [| cbn [threads]; by rewrite list_lookup_alter_eq, Hth | done | exact Hop | done ].
    cbn [default from_option id lock m heap threads world calls at_pc call
         t_key t_fn t_args t_kwargs].
    rewrite alter_at_pc_twice.
    eapply done_stuck. unfold result_of. cbn [threads].
    by rewrite list_lookup_alter_eq, Hth.
Qed.

Lemma step_none_run t sched s :
  step impl t s = None → run impl (t :: sched) s = run impl sched s.
Proof. intros H. by rewrite run_cons, H. Qed.

Lemma pc_of_lookup t s p :
  pc_of t s = Some p ↔ ∃ th, threads s !! t = Some th ∧ t_pc th = p.
Proof.
  unfold pc_of. destruct (threads s !! t) as [th|]; simpl; split.
  - intros [= <-]. eauto.
  - by intros (? & [= <-] & <-).
  - done.
  - by intros (? & ? & _).
Qed.

(** What the invariant of a record says once the leader has written both
    slots. *)
Lemma leader_rec_recorded tl l th r cs :
  leader_rec tl l th r cs → t_pc th = L87 l ∨ ev r = true →
  recorded tl l th r cs.
Proof.
  unfold leader_rec, completed. intros Hl [Hpc|Hev].
  - rewrite Hpc in Hl. rewrite decide_True in Hl by done. by destruct Hl.
  - destruct (t_pc th); repeat case_decide; rewrite ?Hev in Hl;
      destruct_and?; try done; congruence.
Qed.

Lemma leader_rec_length tl l th r cs : leader_rec tl l th r cs → length cs ≤ 1.
Proof.
  unfold leader_rec, completed, recorded, abandoned.
  destruct cs as [|i [|j cs]]; simpl; [lia|lia|].
  destruct (t_pc th); repeat case_decide; destruct (ev r);
    intros; destruct_and?; done.
Qed.




(** C6 (amended).  Whatever the schedule, once the leader has executed lines
    77 to 81, and ever after: exactly one invocation was made for the record,
    it returned or raised an [Exception], and the two slots hold what
    [slots_of] says for its outcome: the return value and [None] after a
    return, [None] and the exception after an exception.  So the failure
    slot is set exactly when the operation raised, and the two slots never
    both hold a value other than [None]. *)
Theorem slots_hold_outcome tl l s sched r :
  rec_inv tl l s →
  heap (run impl sched s) !! l = Some r →
  pc_of tl (run impl sched s) = Some (L87 l) ∨ ev r = true →
  ∃ th o,
    threads (run impl sched s) !! tl = Some th
    ∧ calls_for l (calls (run impl sched s)) = [mk_inv tl l th o]
    ∧ caught o = true
    ∧ res r = res (slots_of o) ∧ err r = err (slots_of o)
    ∧ ¬ (res r ≠ PNone ∧ err r ≠ None).
Proof.
  intros Hrec Hr Hat.
  pose proof (rec_inv_run _ _ sched _ Hrec) as (r0 & th & Hr0 & Hth & Hl & _)%rec_inv_elim.
  assert (r = r0) as -> by congruence. clear Hr.
  assert (recorded tl l th r0 (calls_for l (calls (run impl sched s)))) as [Hcs Hslots].
  { eapply leader_rec_recorded; [done|]. destruct Hat as [(? & ? & ?)%pc_of_lookup|]; [|auto].
    left. congruence. }
  exists th, (outcome_in r0). split_and!; try done;
    unfold outcome_in in *; destruct (err r0) as [e|] eqn:He; simpl; destruct_and?;
    try done; naive_solver.
Qed.

(** While the record is registered a caller with its key stays a follower
    of it. *)
Lemma follower_run tl tf k l sched s :
  exec_ok tl k l s → follower tf k l s → m (run impl sched s) !! k = Some l →
  follower tf k l (run impl sched s).
Proof.
  revert s. induction sched as [|t sched IH]; intros s Hok Hf Hreg; [done|].
  rewrite run_cons in *. destruct (step impl t s) as [s'|] eqn:Hstep; simpl in *; [|by apply IH].
  apply IH; eauto using exec_ok_step_registered, follower_step.
Qed.

(** What a follower that has left [call] got, in terms of the one invocation
    made for the record. *)
Lemma follower_result tl tf k l s o :
  exec_ok tl k l s → follower tf k l s → result_of tf s = Some o →
  ∃ i, calls_for l (calls s) = [i] ∧ inv_tid i = tl ∧ caught (inv_result i) = true
    ∧ (∀ v, inv_result i = Return v → o = Return v)
    ∧ (∀ e, inv_result i = Raise e → exn_truthy e = true → o = Raise e).
Proof.
  intros (Hrec & _) Hf Hres.
  pose proof Hrec as (r & thl & Hr & Hthl & Hl & _)%rec_inv_elim.
  unfold follower, result_of in *. rewrite Hr in Hf.
  destruct (threads s !! tf) as [th|]; [|done]. simpl in Hres.
  destruct Hf as [_ Hf]. destruct (t_pc th); try done. destruct Hf as [Hev ->].
  simplify_eq.
  destruct (leader_rec_recorded _ _ _ _ _ Hl (or_intror Hev)) as [Hcs Hslots].
  eexists. split; [done|]. unfold mk_inv, outcome_in, follower_outcome in *. simpl.
  destruct (err r) as [e|]; simpl; split_and!; try done; try naive_solver.
  intros e' [= <-] ->. done.
Qed.

(** X10.  While the record of an execution is registered under its key,
    whatever the schedule: at most one invocation is made for it; every
    follower of the record ([follower]: a caller with that key and valid
    arguments that has yet to reach the wait of line 66, or that waits on
    this record or has read it) that has left [call] did so after exactly
    one invocation, made by the leader, and with the value that invocation
    returned if it returned one; and once the completion signal has fired,
    a follower that has found the key and gets five turns has left
    [call]. *)
Theorem coalesced_while_registered tl k l s sched :
  exec_ok tl k l s → m (run impl sched s) !! k = Some l →
  let s' := run impl sched s in
  length (calls_for l (calls s')) ≤ 1
  ∧ ∀ tf, follower tf k l s →
      (∀ o, result_of tf s' = Some o →
         ∃ i, calls_for l (calls s') = [i] ∧ inv_tid i = tl
           ∧ ∀ v, inv_result i = Return v → o = Return v)
      ∧ (fired l s → (∃ th, threads s !! tf = Some th ∧ attached (t_pc th) = true) →
         5 ≤ turns tf sched → is_Some (result_of tf s')).
Proof.
  intros Hok Hreg s'. subst s'.
  pose proof (exec_ok_run _ _ _ _ _ Hok Hreg) as Hok'.
  split.
  - destruct Hok' as [(r & thl & _ & _ & Hl & _)%rec_inv_elim _].
    by eapply leader_rec_length.
  - intros tf Hf. pose proof (follower_run _ _ _ _ _ _ Hok Hf Hreg) as Hf'. split.
    + intros o Hres.
      destruct (follower_result _ _ _ _ _ _ Hok' Hf' Hres) as (i & ? & ? & _ & ? & _).
      eauto.
    + intros Hfired (th & Hth & Hat) Hturns.
      destruct (follower_todo_run _ _ _ _ _ _ _ Hok Hf Hfired Hth Hat Hreg)
        as (th' & Hth' & Hat' & Htodo).
      assert (todo (t_pc th') = 0) as Hz.
      { assert (todo (t_pc th) ≤ 5) by (by destruct (t_pc th); simpl; lia). lia. }
      destruct (attached_todo_done _ Hat' Hz) as [o Ho].
      exists o. unfold result_of. rewrite Hth'. simpl. by rewrite Ho.
Qed.

(** C4 (amended).  When the operation raises an [Exception] [e]: a leader
    alone stores [e] once in the failure slot, with [None] as the result,
    invokes the operation once and no more, removes the record and raises
    [e]; and while the record is registered, whatever the schedule, every
    other caller with that key and valid arguments that has left [call] did
    so by raising that same [e], provided [e] is true as a condition, after
    exactly one invocation. *)
Theorem failure_shared t s0 f key args kwargs e w' tl k l s sched :
  threads s0 !! t = Some (call (PFun f) key args kwargs) → is_str key = true →
  lock s0 = None → m s0 !! key = None →
  impl f args kwargs (world s0) = (Raise e, w') → exn_is_Exception e = true →
  exec_ok tl k l s → m (run impl sched s) !! k = Some l →
  (let s1 := run impl (replicate 16 t) s0 in
   result_of t s1 = Some (Raise e)
   ∧ heap s1 = heap s0 ++ [MkCallLock true PNone (Some e)]
   ∧ calls s1 = calls s0 ++ [MkInvocation t (length (heap s0)) key (PFun f) args kwargs
                               (Raise e)]
   ∧ m s1 = m s0)
  ∧ (let s' := run impl sched s in
     ∀ tf o, follower tf k l s → result_of tf s' = Some o →
       ∃ i, calls_for l (calls s') = [i] ∧ inv_tid i = tl
         ∧ ∀ e', inv_result i = Raise e' → exn_truthy e' = true → o = Raise e').
Proof.
  intros Hth Hstr Hlock Hm Hop He Hok Hreg. split.
  - intros s1. subst s1.
    rewrite (leader_solo _ _ _ _ _ _ _ _ Hth Hstr Hlock Hm Hop He).
    cbn [heap calls m slots_of]. split_and!; try done.
    unfold result_of. cbn [threads]. by rewrite list_lookup_alter_eq, Hth.
  - intros s' tf o Hf Hres. subst s'.
    pose proof (exec_ok_run _ _ _ _ _ Hok Hreg) as Hok'.
    pose proof (follower_run _ _ _ _ _ _ Hok Hf Hreg) as Hf'.
    destruct (follower_result _ _ _ _ _ _ Hok' Hf' Hres) as (i & ? & ? & _ & _ & ?).
    eauto.
Qed.

(** An execution whose leader has left [call] without firing the signal
    stays as it is: registered and not fired. *)
Lemma dead_step tl k l t s s' o :
  exec_ok tl k l s → result_of tl s = Some o → ¬ fired l s →
  step impl t s = Some s' →
  exec_ok tl k l s' ∧ result_of tl s' = Some o ∧ ¬ fired l s'.
Proof.
  intros Hok Hres Hnf Hstep.
  assert (t ≠ tl) as Hne.
  { intros ->. revert Hstep Hres.
    unfold result_of, step. destruct (threads s !! tl) as [th|]; simpl; [|done].
    unfold exec_line. by destruct (t_pc th). }
  destruct (threads s !! t) as [th|] eqn:Hth; [|by unfold step in Hstep; rewrite Hth in Hstep].
  destruct (step_frame _ _ _ _ Hth Hstep) as (p' & Hths & _ & Hheap & _).
  pose proof (exec_ok_rec_inv _ _ _ _ Hok) as Hrec.
  apply rec_inv_elim in Hrec as (r & thl & Hr & Hthl & Hl & Hown).
  split_and!.
  - destruct (exec_ok_step_or _ _ _ _ _ _ Hok Hstep) as [|[? _]]; done.
  - unfold result_of in *. by rewrite Hths, list_lookup_alter_ne.
  - unfold fired in *. rewrite (Hheap _ _ (Hown _ _ Hth Hne) Hr). by rewrite Hr in Hnf.
Qed.

Lemma dead_run tl k l sched s o :
  exec_ok tl k l s → result_of tl s = Some o → ¬ fired l s →
  exec_ok tl k l (run impl sched s) ∧ ¬ fired l (run impl sched s).
Proof.
  revert s. induction sched as [|t sched IH]; intros s Hok Hres Hnf; [done|].
  rewrite run_cons. destruct (step impl t s) as [s'|] eqn:Hstep; simpl; [|by apply IH].
  destruct (dead_step _ _ _ _ _ _ _ Hok Hres Hnf Hstep) as (? & ? & ?). by apply IH.
Qed.

(** A follower of a record that has not fired is still inside [call], and
    cannot move if it waits for the signal. *)
Lemma follower_blocked tf k l s :
  follower tf k l s → ¬ fired l s →
  result_of tf s = None ∧ (pc_of tf s = Some (L66w l) → step impl tf s = None).
Proof.
  unfold follower, fired, result_of, pc_of, step. intros Hf Hnf.
  destruct (heap s !! l) as [r|] eqn:Hr; [|done].
  destruct (threads s !! tf) as [th|]; [|done]. simpl. destruct Hf as [_ Hf].
  unfold exec_line. destruct (t_pc th) eqn:Hpc; try done; try (by destruct Hf).
  split; [done|]. intros [= ->]. rewrite Hr. simpl. by destruct (ev r).
Qed.

(** C10.  When the operation raises an exception that is not an [Exception],
    the leader's line 77 ends its call with that exception; from then on,
    whatever the schedule, the completion signal of the record never fires,
    the key stays registered, and every other caller with that key and valid
    arguments, attached already or arriving later, never leaves [call]: once
    it waits for the signal it cannot move. *)
Theorem base_exception_wedges_key tl k l s th e w' :
  exec_ok tl k l s → threads s !! tl = Some th → t_pc th = L77 l →
  invoke impl (t_fn th) (t_args th) (t_kwargs th) (world s) = (Raise e, w') →
  exn_is_Exception e = false →
  ∃ s1, step impl tl s = Some s1 ∧ result_of tl s1 = Some (Raise e)
    ∧ ∀ sched, let s' := run impl sched s1 in
        ¬ fired l s' ∧ m s' !! k = Some l
        ∧ ∀ tf, follower tf k l s →
            result_of tf s' = None
            ∧ (pc_of tf s' = Some (L66w l) → step impl tf s' = None).
Proof.
  intros Hok Hth Hpc Hop He.
  pose proof (abandon_solo _ _ _ _ _ _ Hth Hpc Hop He) as Hstep.
  eexists. split; [exact Hstep|].
  match type of Hstep with _ = Some ?x => set (s1 := x) in * end.
  assert (result_of tl s1 = Some (Raise e)) as Hres.
  { unfold result_of, s1. cbn [threads]. by rewrite list_lookup_alter_eq, Hth. }
  assert (exec_ok tl k l s1) as Hok1.
  { destruct (exec_ok_step_or _ _ _ _ _ _ Hok Hstep) as [|[_ Hnone]]; [done|].
    destruct Hok as (_ & Hm & _). unfold s1 in Hnone. cbn [m] in Hnone. congruence. }
  assert (¬ fired l s1) as Hnf.
  { pose proof (exec_ok_rec_inv _ _ _ _ Hok) as Hrec.
    apply rec_inv_elim in Hrec as (r & thl & Hr & Hthl & Hl & _).
    assert (thl = th) as -> by congruence.
    unfold fired, s1. cbn [heap]. rewrite Hr.
    unfold leader_rec in Hl. rewrite Hpc, decide_True in Hl by done.
    destruct Hl as [-> _]. done. }
  split; [done|]. intros sched s'. subst s'.
  destruct (dead_run _ _ _ sched _ _ Hok1 Hres Hnf) as [Hok' Hnf'].
  split_and!; [done|by destruct Hok' as (_ & ? & _)|].
  intros tf Hf. apply (follower_blocked tf k l); [|done].
  eapply follower_run; [exact Hok1| |by destruct Hok' as (_ & ? & _)].
  eapply (follower_step tl tf k l tl s); [exact Hok|exact Hf|exact Hstep].
Qed.

Lemma along_head (P : @state W → Prop) sched s : along impl P sched s → P s.
Proof. destruct sched; simpl; tauto. Qed.

Lemma follower_ext tf k l s s' :
  heap s' !! l = heap s !! l → threads s' !! tf = threads s !! tf →
  follower tf k l s → follower tf k l s'.
Proof. unfold follower. by intros -> ->. Qed.

(** A follower that reads a registry which holds the same fired record under
    its key at each of its reads. *)
Lemma reads_run t k l r sched s th :
  ev r = true → along impl (serves k l r) sched s →
  follower t k l s → threads s !! t = Some th →
  attached (t_pc th) = true → in_cs (t_pc th) = false →
  ∃ th', threads (run impl sched s) !! t = Some th' ∧ attached (t_pc th') = true
    ∧ todo (t_pc th') ≤ todo (t_pc th) - turns t sched
    ∧ follower t k l (run impl sched s)
    ∧ heap (run impl sched s) !! l = Some r.
Proof.
  intros Hev. revert s th.
  induction sched as [|t0 sched IH]; intros s th Hal Hf Hth Hat Hcs.
  { destruct Hal as [[_ Hr] _]. exists th. unfold turns. simpl.
    split_and!; try done. lia. }
  destruct Hal as [[Hm Hr] Hal]. rewrite run_cons.
  assert (fired l s) as Hfired by (unfold fired; by rewrite Hr).
  destruct (decide (t0 = t)) as [->|Hne].
  - rewrite turns_cons_eq.
    assert (holds_lock (lock s) t th) as Hlock by (unfold holds_lock; congruence).
    destruct (follower_progress_own _ _ _ _ _ Hm Hlock Hf Hfired Hth Hat)
      as [Hz|(s' & p' & Hstep & Hth' & Hat' & Hcs' & Hlt)].
    + destruct (attached_todo_done _ Hat Hz) as [o Ho].
      assert (step impl t s = None) as Hnone.
      { unfold step. rewrite Hth. simpl. unfold exec_line. by rewrite Ho. }
      rewrite Hnone in *. simpl in *.
      destruct (IH s th) as (th' & ? & ? & ? & ? & ?); try done.
      exists th'. split_and!; try done. lia.
    + rewrite Hstep in *. simpl in *.
      destruct (IH s' (at_pc p' th)) as (th' & ? & ? & ? & ? & ?); try done.
      { eapply follower_step_own; try done. intros th0 Hth0.
        assert (th0 = th) as -> by congruence. done. }
      exists th'. split_and!; try done. simpl in *. lia.
  - rewrite turns_cons_ne by done.
    destruct (step impl t0 s) as [s'|] eqn:Hstep; simpl in *; [|by apply IH].
    destruct (threads s !! t0) as [th0|] eqn:Hth0;
      [|by unfold step in Hstep; rewrite Hth0 in Hstep].
    destruct (step_frame _ _ _ _ Hth0 Hstep) as (p' & Hths & _).
    pose proof (along_head _ _ _ Hal) as [_ Hr'].
    apply IH; try done.
    + eapply follower_ext; [| |exact Hf]; [congruence|].
      by rewrite Hths, list_lookup_alter_ne.
    + by rewrite Hths, list_lookup_alter_ne.
Qed.

(** X11.  What lines 61 to 70 do: a caller that finds its key registered
    releases the lock at once and goes on with its key only, no reference to
    the record.  It then looks the key up in the registry again for the wait
    and for every read of the failure and of the result.  If the registry
    holds one fired record under the key at each of these lookups, four
    turns take the follower out of [call] with [follower_outcome] of that
    record: its failure, if it is set and true as a condition, and its
    result otherwise. *)
Theorem follower_reads_registry t k l r s sched th :
  threads s !! t = Some th → t_key th = k → t_pc th = L66 →
  ev r = true → along impl (serves k l r) sched s → 4 ≤ turns t sched →
  result_of t (run impl sched s) = Some (follower_outcome r)
  ∧ ∀ s0 holder, threads s0 !! t = Some (at_pc L61 th) → is_Some (m s0 !! k) →
      lock s0 = Some holder →
      run impl [t; t] s0 = goto t L66 (with_lock None s0).
Proof.
  intros Hth Hk Hpc Hev Hal Hturns. split.
  - assert (follower t k l s) as Hf.
    { unfold follower. destruct (along_head _ _ _ Hal) as [_ ->]. by rewrite Hth, Hpc. }
    destruct (reads_run _ _ _ _ _ _ _ Hev Hal Hf Hth) as (th' & Hth' & Hat' & Htodo & Hf' & Hr');
      [by rewrite Hpc..|].
    rewrite Hpc in Htodo. simpl in Htodo.
    destruct (attached_todo_done (t_pc th') Hat') as [o Ho]; [lia|].
    unfold follower in Hf'. rewrite Hr', Hth', Ho in Hf'. destruct Hf' as (_ & _ & ->).
    unfold result_of. rewrite Hth'. simpl. by rewrite Ho.
  - intros s0 holder Hth0 [c Hc] Hlock. destruct s0 as [lk mm hp ths w cs].
    cbn [lock m threads] in *. subst lk.
    solo_step Hth0. rewrite Hk, Hc. solo_cbn. norm_state.
    solo_step Hth0. by rewrite run_nil'.
Qed.

(** C3 (amended).  When the key is not a string, or the operation is not
    callable, [call] raises [TypeError] at its first or second line: the
    lock, the registry, the records, the log of invocations and the world
    are what they were, so nothing was locked and no record was inserted.
    For every other input, the empty string as a key included, the checks
    raise nothing and the caller goes on to take the lock (line 60). *)
Theorem call_validates t s fn key args kwargs :
  threads s !! t = Some (call fn key args kwargs) →
  let s' := run impl [t; t] s in
  (lock s' = lock s ∧ m s' = m s ∧ heap s' = heap s ∧ calls s' = calls s
   ∧ world s' = world s)
  ∧ (is_str key = false →
     result_of t (run impl [t] s) = Some (Raise (TypeError "Key should be a str"))
     ∧ result_of t s' = Some (Raise (TypeError "Key should be a str")))
  ∧ (is_str key = true → is_callable fn = false →
     result_of t s' = Some (Raise (TypeError "fn should be a callable")))
  ∧ (is_str key = true → is_callable fn = true → pc_of t s' = Some L60).
Proof.
  intros Hth s'. subst s'. rewrite (validate_solo _ _ _ _ _ _ Hth).
  split_and!; try done.
  - intros Hk. rewrite Hk. split; [|by eapply result_of_goto].
    rewrite run_cons, run_nil'. unfold step. rewrite Hth. solo_cbn. rewrite Hk.
    by eapply result_of_goto.
  - intros -> ->. by eapply result_of_goto.
  - intros -> ->. unfold pc_of. cbn [threads goto].
    by rewrite list_lookup_alter_eq, Hth.
Qed.

(** C5.  A caller with a string key that is not registered, alone with the
    lock free, invokes the operation exactly once, with exactly the
    positional and keyword arguments it was given, and leaves [call] the way
    the operation ended: when the operation returns [v], [call] returns [v].
    Nothing more happens however many more turns the caller gets. *)
Theorem leader_invokes_once t s f (ks : string) args kwargs o w' n :
  threads s !! t = Some (call (PFun f) (PStr ks) args kwargs) →
  lock s = None → m s !! PStr ks = None →
  impl f args kwargs (world s) = (o, w') → 16 ≤ n →
  let s' := run impl (replicate n t) s in
  calls s' = calls s ++ [MkInvocation t (length (heap s)) (PStr ks) (PFun f) args kwargs o]
  ∧ world s' = w'
  ∧ result_of t s' = Some o
  ∧ (∀ v, o = Return v → result_of t s' = Some (Return v)).
Proof.
  intros Hth Hlock Hm Hop Hn s'. subst s'.
  rewrite (call_solo _ _ _ _ _ _ _ _ _ Hth eq_refl Hlock Hm Hop Hn).
  assert (result_of t
    (MkState None (if caught o then m s else <[PStr ks := length (heap s)]> (m s))
       (heap s ++ [if caught o then slots_of o else CallLock_init])
       (alter (at_pc (Done o)) t (threads s)) w'
       (calls s ++ [MkInvocation t (length (heap s)) (PStr ks) (PFun f) args kwargs o]))
    = Some o) as Hres.
  { unfold result_of. cbn [threads]. by rewrite list_lookup_alter_eq, Hth. }
  split_and!; try done. by intros v ->.
Qed.

(** C7.  Once a call for a key has completed, with a result or with an
    [Exception], its record is gone from the registry, and the next call
    with the same key invokes its operation again, on a new record: it ends
    the way this second invocation ends, whatever the first one did. *)
Theorem next_call_runs_again t1 t2 s f1 f2 key a1 kw1 a2 kw2 o1 w1 o2 w2 :
  t1 ≠ t2 →
  threads s !! t1 = Some (call (PFun f1) key a1 kw1) →
  threads s !! t2 = Some (call (PFun f2) key a2 kw2) →
  is_str key = true → lock s = None → m s !! key = None →
  impl f1 a1 kw1 (world s) = (o1, w1) → caught o1 = true →
  impl f2 a2 kw2 w1 = (o2, w2) →
  let s1 := run impl (replicate 16 t1) s in
  let s2 := run impl (replicate 16 t2) s1 in
  result_of t1 s1 = Some o1 ∧ m s1 !! key = None
  ∧ calls s2 = calls s ++ [MkInvocation t1 (length (heap s)) key (PFun f1) a1 kw1 o1;
                           MkInvocation t2 (S (length (heap s))) key (PFun f2) a2 kw2 o2]
  ∧ result_of t2 s2 = Some o2.
Proof.
  intros Hne Hth1 Hth2 Hstr Hlock Hm Hop1 Hc Hop2 s1 s2. subst s1 s2.
  rewrite (call_solo _ _ _ _ _ _ _ _ 16 Hth1 Hstr Hlock Hm Hop1) by done.
  rewrite Hc.
  erewrite (call_solo t2 _ f2 key a2 kw2 o2 w2 16); try done.
  - cbn [lock m heap threads world calls]. split_and!; try done.
    + unfold result_of. cbn [threads]. by rewrite list_lookup_alter_eq, Hth1.
    + rewrite length_app. cbn [length]. rewrite Nat.add_1_r. by rewrite <-app_assoc.
    + unfold result_of. cbn [threads].
      by rewrite list_lookup_alter_eq, list_lookup_alter_ne, Hth2.
  - cbn [threads]. by rewrite list_lookup_alter_ne.
Qed.

Lemma state_ok_init ths (w : W) :
  Forall (λ th, t_pc th = L53) ths → state_ok (SingleFlight_init ths w).
Proof.
  intros Hths. split_and!.
  - apply all_threads_lookup. intros t th Hth. simpl in Hth.
    rewrite Forall_lookup in Hths. unfold holds_lock. by rewrite (Hths _ _ Hth).
  - by apply Forall_nil.
  - apply all_threads_lookup. intros t th Hth. simpl in Hth.
    rewrite Forall_lookup in Hths. unfold leader_ok. by rewrite (Hths _ _ Hth).
Qed.

(** Two callers cannot both be between lines 61 and 74, or 93 and 94. *)
Lemma lock_excl s t t' th th' :
  all_threads (holds_lock (lock s)) s →
  threads s !! t = Some th → threads s !! t' = Some th' →
  in_cs (t_pc th) = true → in_cs (t_pc th') = true → t = t'.
Proof.
  intros Hl Hth Hth' Hc Hc'.
  pose proof (proj1 (all_threads_lookup _ _) Hl _ _ Hth Hc).
  pose proof (proj1 (all_threads_lookup _ _) Hl _ _ Hth' Hc'). congruence.
Qed.

(** A record that a caller is about to register is written by nobody
    else. *)
Lemma fresh_unowned s t t' th th' c :
  state_ok s → threads s !! t = Some th → threads s !! t' = Some th' → t ≠ t' →
  t_pc th = L73 c ∨ t_pc th = L74 c →
  pre_owns (t_pc th') ≠ Some c.
Proof.
  intros (Hlock & _ & Hok) Hth Hth' Hne Hpc Hown.
  assert (in_cs (t_pc th) = true) as Hcs by (by destruct Hpc as [-> | ->]).
  pose proof (proj1 (all_threads_lookup _ _) Hok _ _ Hth') as Hl. unfold leader_ok in Hl.
  destruct (t_pc th') eqn:Hpc'; simplify_eq/=;
    try (by apply Hne; eapply (lock_excl s t t' th th'); [done..|by rewrite Hpc']).
  all: apply exec_ok_rec_inv, rec_inv_elim in Hl as (_ & _ & _ & _ & _ & Hno).
  all: apply (Hno _ _ Hth Hne); by destruct Hpc as [-> | ->].
Qed.


Lemma state_ok_elim s t th :
  state_ok s → threads s !! t = Some th →
  holds_lock (lock s) t th ∧ leader_ok s t th.
Proof. intros (Hl & _ & Hok) Hth. split; by eapply all_threads_lookup. Qed.

(** A step of one caller keeps what the others have established. *)
Lemma leader_ok_other s s' t t' th' :
  state_ok s → step impl t s = Some s' → threads s !! t' = Some th' → t' ≠ t →
  leader_ok s' t' th'.
Proof.
  intros Hs Hstep Hth' Hne.
  destruct (threads s !! t) as [th|] eqn:Hth; [|by unfold step in Hstep; rewrite Hth in Hstep].
  destruct (state_ok_elim _ _ _ Hs Hth) as [Hlt _].
  destruct (state_ok_elim _ _ _ Hs Hth') as [Hlt' Hl].
  destruct (step_frame _ _ _ _ Hth Hstep) as (p' & Hths & _ & Hheap & Hcalls).
  assert (in_cs (t_pc th') = true → m s' !! t_key th' = m s !! t_key th') as Hm.
  { intros Hcs.
    destruct (step_frame_m _ _ _ _ (t_key th') Hth Hstep)
      as [?|[_ [(c & Hpc & _)|(c & Hpc & _)]]]; [done|exfalso..];
      apply Hne; symmetry; eapply (lock_excl s t t' th th'); try done;
      try apply Hs; by rewrite Hpc. }
  assert (∀ c, t_pc th' = L73 c ∨ t_pc th' = L74 c → pre_owns (t_pc th) ≠ Some c) as Hfresh.
  { intros c Hpc. by eapply (fresh_unowned s t' t th' th). }
  unfold leader_ok in *. destruct (t_pc th') eqn:Hpc'; try done.
  - rewrite Hm; done.
  - destruct Hl as (? & ? & ?). rewrite Hm, Hcalls by eauto. split_and!; eauto.
  - destruct Hl as (? & ? & ?). rewrite Hm, Hcalls by eauto. split_and!; eauto.
  - destruct (exec_ok_step_or _ _ _ _ _ _ Hl Hstep) as [|[? _]]; done.
  - destruct (exec_ok_step_or _ _ _ _ _ _ Hl Hstep) as [|[? _]]; done.
  - destruct (exec_ok_step_or _ _ _ _ _ _ Hl Hstep) as [|[? _]]; done.
  - destruct (exec_ok_step_or _ _ _ _ _ _ Hl Hstep) as [|[? _]]; done.
  - destruct (exec_ok_step_or _ _ _ _ _ _ Hl Hstep) as [|[? _]]; done.
  - destruct (exec_ok_step_or _ _ _ _ _ _ Hl Hstep) as [|[? _]]; done.
  - destruct (exec_ok_step_or _ _ _ _ _ _ Hl Hstep) as [|[? _]]; done.
  - destruct (exec_ok_step_or _ _ _ _ _ _ Hl Hstep) as [|[? _]]; done.
Qed.

(** Every invocation in the log is for a record that exists. *)
Lemma calls_fresh_step s s' t :
  state_ok s → step impl t s = Some s' →
  Forall (λ i, inv_cl i < length (heap s')) (calls s').
Proof.
  intros Hs Hstep. pose proof Hs as (_ & Hc & _).
  step_inv Hstep; rewrite ?length_alter, ?length_app; try done.
  all: try (eapply Forall_impl; [exact Hc|]; simpl; intros; lia).
  all: destruct (state_ok_elim _ _ _ Hs Hth) as [_ Hl]; unfold leader_ok in Hl;
    rewrite Hpc in Hl;
    apply exec_ok_rec_inv, rec_inv_elim in Hl as (r & _ & Hr%lookup_lt_Some & _).
  all: apply Forall_app; split; [done|]; by apply Forall_singleton.
Qed.


(** The step that takes a caller from line 74 to line 77 starts its
    execution. *)
Lemma exec_ok_start s s' t th c :
  state_ok s → threads s !! t = Some th → t_pc th = L74 c →
  step impl t s = Some s' → exec_ok t (t_key th) c s'.
Proof.
  intros Hs Hth Hpc Hstep.
  destruct (state_ok_elim _ _ _ Hs Hth) as [Hlt Hl].
  unfold leader_ok in Hl. rewrite Hpc in Hl. destruct Hl as (Hm & Hr & Hcs).
  assert (lock s = Some t) as Hlk by (apply Hlt; by rewrite Hpc).
  pose proof (holds_lock_step _ _ _ (proj1 Hs) Hstep) as Hlock'.
  assert (s' = goto t (L77 c) (with_lock None s)) as ->.
  { unfold step in Hstep. rewrite Hth in Hstep. simpl in Hstep.
    unfold exec_line, release in Hstep. rewrite Hpc, Hlk in Hstep. congruence. }
  split_and!; [|done|done|].
  - eapply (rec_inv_intro _ _ _ CallLock_init (at_pc (L77 c) th)); simpl.
    + done.
    + by rewrite list_lookup_alter_eq, Hth.
    + unfold leader_rec. simpl. by rewrite decide_True.
    + apply all_threads_lookup. simpl. intros t' th' Hth' Hne.
      rewrite list_lookup_alter_ne in Hth' by done.
      eapply (fresh_unowned s t t' th th'); eauto.
  - apply all_threads_lookup. simpl. intros t' th' Hth'.
    destruct (decide (t' = t)) as [->|Hne].
    + rewrite list_lookup_alter_eq, Hth in Hth'. simplify_eq/=. unfold key_claim. done.
    + rewrite list_lookup_alter_ne in Hth' by done.
      destruct (state_ok_elim _ _ _ Hs Hth') as [Hlt' Hl'].
      unfold key_claim. intros Hk. unfold leader_ok in Hl'.
      destruct (t_pc th') eqn:Hpc'; try done;
        try (by apply Hne; eapply (lock_excl s t' t th' th);
                  [apply Hs|done|done|by rewrite Hpc'|by rewrite Hpc]).
      all: destruct (exec_ok_elim _ _ _ _ _ _ Hl' Hth) as (_ & _ & Hkc).
      all: unfold key_claim in Hkc; rewrite Hpc in Hkc; by destruct Hkc.
Qed.

Lemma calls_for_fresh n cs :
  Forall (λ i, inv_cl i < n) cs → calls_for n cs = [].
Proof.
  unfold calls_for. induction 1 as [|i cs Hi _ IH]; [done|].
  rewrite filter_cons, decide_False by lia. done.
Qed.

(** A step of a caller keeps, or establishes, what its new program point
    asks for. *)
Lemma leader_ok_self s s' t th th1 :
  state_ok s → step impl t s = Some s' → threads s !! t = Some th →
  threads s' !! t = Some th1 → leader_ok s' t th1.
Proof.
  intros Hs Hstep Hth Hth1.
  destruct (state_ok_elim _ _ _ Hs Hth) as [Hlt Hl].
  pose proof Hs as (_ & Hfresh%calls_for_fresh & _).
  assert (∀ c, m s' !! t_key th = m s !! t_key th →
               exec_ok t (t_key th) c s → exec_ok t (t_key th) c s') as Hkeep.
  { intros c Hm Hok. destruct (exec_ok_step_or _ _ _ _ _ _ Hok Hstep) as [|[_ Hnone]];
      [done|]. destruct Hok as (_ & Hreg & _). congruence. }
  assert (∀ c, t_pc th = L74 c → exec_ok t (t_key th) c s') as Hstart
    by (intros; by eapply exec_ok_start).
  unfold leader_ok in Hl. revert Hth1. clear Hs.
  step_inv Hstep; simpl; rewrite list_lookup_alter_eq;
    match goal with H : threads s !! t = Some _ |- _ => rewrite H end;
    intros [= <-]; unfold leader_ok; simpl; try done.
  all: try (by eapply Hkeep; eauto).
  all: try (by eapply Hstart).
  - split_and!; [done|by apply list_lookup_middle|done].
  - destruct Hl as (? & ? & ?). by rewrite lookup_insert_eq.
Qed.

Lemma state_ok_step s s' t :
  state_ok s → step impl t s = Some s' → state_ok s'.
Proof.
  intros Hs Hstep. split_and!.
  - eapply holds_lock_step; [apply Hs|done].
  - by eapply calls_fresh_step.
  - destruct (threads s !! t) as [th|] eqn:Hth;
      [|by unfold step in Hstep; rewrite Hth in Hstep].
    destruct (step_frame _ _ _ _ Hth Hstep) as (p' & Hths & _).
    apply all_threads_lookup. intros t' th' Hth'.
    destruct (decide (t' = t)) as [->|Hne]; [by eapply leader_ok_self|].
    rewrite Hths, list_lookup_alter_ne in Hth' by done.
    by eapply leader_ok_other.
Qed.

Lemma state_ok_run sched s : state_ok s → state_ok (run impl sched s).
Proof.
  revert s. induction sched as [|t sched IH]; intros s Hs; simpl; [done|].
  apply IH. destruct (step impl t s) eqn:E; simpl; eauto using state_ok_step.
Qed.

Lemma leading_intro tl k l th0 s r th :
  rec_inv tl l s → all_threads (holds_lock (lock s)) s →
  heap s !! l = Some r → threads s !! tl = Some th →
  leading_at tl k l th0 s r th → leading tl k l th0 s.
Proof. unfold leading. by intros ?? -> -> ?. Qed.

Lemma leading_elim tl k l th0 s :
  leading tl k l th0 s →
  ∃ r th, heap s !! l = Some r ∧ threads s !! tl = Some th
    ∧ leading_at tl k l th0 s r th.
Proof.
  intros (_ & _ & Hl).
  destruct (heap s !! l) as [r|], (threads s !! tl) as [th|]; try done. eauto.
Qed.

Lemma leading_start tl k l s th :
  exec_ok tl k l s → threads s !! tl = Some th → t_pc th = L77 l → t_key th = k →
  leading tl k l th s.
Proof.
  intros Hok Hth Hpc Hk. pose proof Hok as (Hrec & _ & Hlock & _).
  pose proof Hrec as (r & th' & Hr & Hth' & _)%rec_inv_elim.
  eapply (leading_intro _ _ _ _ _ r th); [done..|]. unfold leading_at. by rewrite Hpc.
Qed.

Lemma leading_step_other tl k l th0 t s s' :
  leading tl k l th0 s → t ≠ tl → step impl t s = Some s' → leading tl k l th0 s'.
Proof.
  intros Hlead Hne Hstep.
  pose proof Hlead as (r & thl & Hr & Hthl & Hfr & Hk & Hl)%leading_elim.
  destruct Hlead as (Hrec & Hlock & _).
  destruct (threads s !! t) as [th|] eqn:Hth; [|by unfold step in Hstep; rewrite Hth in Hstep].
  destruct (step_frame _ _ _ _ Hth Hstep) as (p' & Hths & _ & Hheap & Hcalls).
  pose proof Hrec as (_ & _ & _ & _ & _ & Hown)%rec_inv_elim.
  eapply (leading_intro _ _ _ _ _ r thl);
    [by eapply rec_inv_step|by eapply holds_lock_step|by eapply Hheap, Hr; eauto
    |by rewrite Hths, list_lookup_alter_ne|].
  split_and!; [done..|].
  rewrite (Hcalls _ (Hown _ _ Hth Hne)).
  destruct (t_pc thl); try done; destruct_and?; split_and?; try done.
  all: match goal with
       | H : exec_ok _ _ _ _ |- _ =>
           destruct (exec_ok_step_or _ _ _ _ _ _ H Hstep) as [|[? _]]; done
       end.
Qed.

Lemma mk_inv_frame tl l th th0 o :
  at_pc L53 th = at_pc L53 th0 → mk_inv tl l th o = mk_inv tl l th0 o.
Proof. unfold mk_inv, at_pc. by intros [= -> -> -> ->]. Qed.

Lemma leading_step_self tl k l th0 s s' :
  leading tl k l th0 s → step impl tl s = Some s' → leading tl k l th0 s'.
Proof.
  intros Hlead Hstep.
  pose proof Hlead as (r & thl & Hr & Hthl & Hfr & Hk & Hl)%leading_elim.
  destruct Hlead as (Hrec & Hlock & _).
  pose proof (rec_inv_step _ _ _ _ _ Hrec Hstep) as Hrec'.
  pose proof (holds_lock_step _ _ _ Hlock Hstep) as Hlock'.
  pose proof Hrec as (r0 & thl0 & Hr0 & Hthl0 & Hlr & _)%rec_inv_elim.
  assert (r0 = r) as -> by congruence. assert (thl0 = thl) as -> by congruence.
  clear Hr0 Hthl0.
  pose proof (proj1 (all_threads_lookup _ _) Hlock _ _ Hthl) as Hlk.
  assert (∀ c, m s' !! k = m s !! k → exec_ok tl k c s → exec_ok tl k c s') as Hkeep.
  { intros c Hm Hok. destruct (exec_ok_step_or _ _ _ _ _ _ Hok Hstep) as [|[_ Hnone]];
      [done|]. destruct Hok as (_ & Hreg & _). congruence. }
  assert (∀ s1 r1 p,
    Some s1 = Some s' →
    heap s1 !! l = Some r1 → threads s1 = alter (at_pc p) tl (threads s) →
    match p with
    | L77 c | L78 c | L80 c _ | L81 c _ | L87 c =>
        c = l ∧ m s1 !! k = m s !! k ∧ exec_ok tl k l s
    | L88 c | L92 c | L93 c =>
        c = l ∧ ev r1 = true ∧ m s1 !! k = m s !! k ∧ exec_ok tl k l s
    | L94 c | L95 c => c = l ∧ ev r1 = true
    | Done o => calls_for l (calls s1) = [mk_inv tl l th0 o]
    | _ => False
    end → leading tl k l th0 s') as Hgo.
  { intros s1 r1 p [= <-] Hr1 Hths Hp.
    eapply (leading_intro _ _ _ _ _ r1 (at_pc p thl)); [done..| |].
    - by rewrite Hths, list_lookup_alter_eq, Hthl.
    - split_and!; [exact Hfr|exact Hk|].
      simpl. destruct p; try done; destruct_and?; split_and?; auto. }
  unfold holds_lock in Hlk. unfold leader_rec in Hlr.
  unfold step in Hstep. rewrite Hthl in Hstep. simpl in Hstep.
  unfold exec_line in Hstep.
  destruct (t_pc thl) eqn:Hpc; try done; destruct Hl as [-> Hl];
    rewrite ?decide_True in Hlr by done; simpl in Hstep.
  - destruct (invoke impl (t_fn thl) (t_args thl) (t_kwargs thl) (world s)) as [o w].
    destruct Hlr as [Hev Hcs].
    destruct o as [v|e]; [|destruct (exn_is_Exception e) eqn:He].
    + eapply (Hgo _ _ _ Hstep); [|reflexivity|]; simpl.
      * by rewrite list_lookup_alter_eq, Hr.
      * done.
    + eapply (Hgo _ _ _ Hstep); [|reflexivity|]; simpl; [exact Hr|].
      done.
    + eapply (Hgo _ _ _ Hstep); [|reflexivity|]; simpl; [exact Hr|].
      rewrite calls_for_snoc, Hcs, decide_True by done. simpl.
      by rewrite <-(mk_inv_frame tl l thl th0).
  - eapply (Hgo _ _ _ Hstep); [|reflexivity|]; simpl.
    + by rewrite list_lookup_alter_eq, Hr.
    + done.
  - eapply (Hgo _ _ _ Hstep); [|reflexivity|]; simpl.
    + by rewrite list_lookup_alter_eq, Hr.
    + done.
  - eapply (Hgo _ _ _ Hstep); [|reflexivity|]; simpl.
    + by rewrite list_lookup_alter_eq, Hr.
    + done.
  - eapply (Hgo _ _ _ Hstep); [|reflexivity|]; simpl.
    + by rewrite list_lookup_alter_eq, Hr.
    + done.
  - destruct Hl as [Hev Hok].
    eapply (Hgo _ _ _ Hstep); [|reflexivity|]; simpl; [exact Hr|].
    done.
  - destruct Hl as [Hev Hok]. unfold acquire in Hstep.
    destruct (lock s); [done|].
    eapply (Hgo _ _ _ Hstep); [|reflexivity|]; simpl; [exact Hr|].
    done.
  - destruct Hl as [Hev Hok]. pose proof Hok as (_ & Hreg & _).
    rewrite Hk, Hreg in Hstep.
    eapply (Hgo _ _ _ Hstep); [|reflexivity|]; simpl; [exact Hr|]. done.
  - unfold release in Hstep. rewrite (Hlk eq_refl) in Hstep.
    eapply (Hgo _ _ _ Hstep); [|reflexivity|]; simpl; [exact Hr|]. done.
  - rewrite Hr in Hstep. simpl in Hstep.
    eapply (Hgo _ _ _ Hstep); [|reflexivity|]; simpl; [exact Hr|].
    unfold completed in Hlr. rewrite Hl in Hlr. destruct Hlr as [-> _].
    by rewrite <-(mk_inv_frame tl l thl th0).
Qed.

Lemma leading_step tl k l th0 t s s' :
  leading tl k l th0 s → step impl t s = Some s' → leading tl k l th0 s'.
Proof.
  destruct (decide (t = tl)) as [->|];
    eauto using leading_step_self, leading_step_other.
Qed.

Lemma leading_run tl k l th0 sched s :
  leading tl k l th0 s → leading tl k l th0 (run impl sched s).
Proof.
  revert s. induction sched as [|t sched IH]; intros s Hl; simpl; [done|].
  apply IH. destruct (step impl t s) eqn:E; simpl; eauto using leading_step.
Qed.

Lemma leading_result tl k l th0 s o :
  leading tl k l th0 s → result_of tl s = Some o →
  calls_for l (calls s) = [mk_inv tl l th0 o].
Proof.
  intros (r & th & Hr & Hth & _ & _ & Hl)%leading_elim. unfold result_of.
  rewrite Hth. simpl. destruct (t_pc th); try done. by intros [= <-].
Qed.

(** A caller that has left [call] stays as it left. *)
Lemma result_stable t sched s o :
  result_of t s = Some o → result_of t (run impl sched s) = Some o.
Proof.
  revert s. induction sched as [|t' sched IH]; intros s Hres; simpl; [done|].
  apply IH. destruct (step impl t' s) as [s'|] eqn:Hstep; simpl; [|done].
  destruct (threads s !! t') as [th'|] eqn:Hth';
    [|by unfold step in Hstep; rewrite Hth' in Hstep].
  destruct (step_frame _ _ _ _ Hth' Hstep) as (p' & Hths & _).
  unfold result_of in *. rewrite Hths.
  destruct (decide (t' = t)) as [->|Hne]; [|by rewrite list_lookup_alter_ne].
  exfalso. rewrite Hth' in Hres. simpl in Hres.
  unfold step in Hstep. rewrite Hth' in Hstep. simpl in Hstep.
  unfold exec_line in Hstep. by destruct (t_pc th').
Qed.

Lemma lock_owned_step t s s' :
  all_threads (holds_lock (lock s)) s → lock_owned s →
  step impl t s = Some s' → lock_owned s'.
Proof.
  intros Hlock Hown Hstep.
  destruct (threads s !! t) as [th|] eqn:Hth; [|by unfold step in Hstep; rewrite Hth in Hstep].
  pose proof (proj1 (all_threads_lookup _ _) Hlock _ _ Hth) as Hself.
  assert (lock s = Some t → in_cs (t_pc th) = true) as Hmine.
  { intros Hlk. unfold lock_owned in Hown. by rewrite Hlk, Hth in Hown. }
  assert (∀ h, lock s = Some h → h ≠ t →
            match threads s !! h with
            | Some th' => in_cs (t_pc th') = true
            | None => False
            end) as Hother.
  { intros h Hlk _. unfold lock_owned in Hown. by rewrite Hlk in Hown. }
  unfold holds_lock in Hself. clear Hown Hlock.
  step_inv Hstep; unfold lock_owned; simpl; try done;
    rewrite Hpc in Hmine, Hself; simpl in Hmine, Hself;
    match goal with H : threads s !! t = Some _ |- _ => rename H into Hlk_t end;
    try (by rewrite list_lookup_alter_eq, Hlk_t);
    try (destruct (lock s) as [h|] eqn:Hlk; [|done];
         destruct (decide (h = t)) as [->|Hne];
         [ rewrite list_lookup_alter_eq, Hlk_t; simpl; try done;
           by specialize (Hmine eq_refl)
         | rewrite list_lookup_alter_ne by done; by apply Hother ]).
Qed.

(** The only step that allocates a record is line 72. *)
Lemma heap_length_step t s s' th :
  threads s !! t = Some th → step impl t s = Some s' →
  length (heap s') = length (heap s)
  ∨ (t_pc th = L72 ∧ length (heap s') = S (length (heap s))
     ∧ threads s' = alter (at_pc (L73 (length (heap s)))) t (threads s)
     ∧ calls s' = calls s).
Proof.
  intros Hth' H. step_inv H; rewrite ?length_alter; try (by left).
  right. rewrite length_app. simpl. split_and!; try done. lia.
Qed.

Lemma records_ok_step t s s' :
  state_ok s → records_ok s → step impl t s = Some s' → records_ok s'.
Proof.
  intros Hs Hrecs Hstep l Hl.
  destruct (threads s !! t) as [th|] eqn:Hth; [|by unfold step in Hstep; rewrite Hth in Hstep].
  destruct (step_frame _ _ _ _ Hth Hstep) as (p' & Hths & _ & _ & Hcalls).
  assert (l < length (heap s) ∨ l = length (heap s) ∧ t_pc th = L72
          ∧ p' = L73 (length (heap s)) ∧ calls s' = calls s) as [Hlt|(-> & Hpc & -> & Hcs)].
  { destruct (heap_length_step _ _ _ _ Hth Hstep) as [Hlen|(Hpc & Hlen & Hths' & Hcs)];
      [left; lia|].
    destruct (decide (l < length (heap s))); [by left|right].
    split_and!; [lia|done| |done].
    assert (threads s' !! t = Some (at_pc p' th)) as H1
      by (by rewrite Hths, list_lookup_alter_eq, Hth).
    rewrite Hths', list_lookup_alter_eq, Hth in H1. simpl in H1. by simplify_eq. }
  - destruct (Hrecs l Hlt) as [[tl Hrec]|(t0 & th0 & Hth0 & Hpc0 & Hcs0)].
    + left. exists tl. by eapply rec_inv_step.
    + destruct (decide (t0 = t)) as [->|Hne].
      * assert (th0 = th) as -> by congruence.
        destruct Hpc0 as [Hpc0|Hpc0].
        -- right. exists t, (at_pc (L74 l) th).
           pose proof Hstep as Hstep'. unfold step in Hstep'. rewrite Hth in Hstep'.
           simpl in Hstep'. unfold exec_line in Hstep'. rewrite Hpc0 in Hstep'.
           simplify_eq/=. rewrite list_lookup_alter_eq, Hth. split_and!; auto.
        -- left. exists t. eapply exec_ok_rec_inv. by eapply exec_ok_start.
      * right. exists t0, th0. rewrite Hths, list_lookup_alter_ne by done.
        split_and!; [done..|]. rewrite Hcalls; [done|].
        by eapply (fresh_unowned s t0 t th0 th).
  - right. exists t, (at_pc (L73 (length (heap s))) th).
    rewrite Hths, list_lookup_alter_eq, Hth. split_and!; [done|by left|].
    rewrite Hcs. apply calls_for_fresh, Hs.
Qed.

(** A caller that has looked for its key never looks for it again. *)
Lemma past_check_step t s s' th :
  threads s !! t = Some th → step impl t s = Some s' →
  ∃ p', threads s' = alter (at_pc p') t (threads s)
    ∧ (past_check (t_pc th) = true ∨ (∃ c, t_pc th = L73 c) → past_check p' = true).
Proof.
  intros Hth' H. step_inv H; eexists; (split; [reflexivity|]); simpl;
    rewrite ?Hpc; simpl; naive_solver.
Qed.

Lemma keys_held_step t s s' :
  keys_held s → step impl t s = Some s' → keys_held s'.
Proof.
  intros Hkeys Hstep k c Hm.
  destruct (threads s !! t) as [th|] eqn:Hth; [|by unfold step in Hstep; rewrite Hth in Hstep].
  destruct (past_check_step _ _ _ _ Hth Hstep) as (p' & Hths & Hp').
  destruct (step_frame_m _ _ _ _ k Hth Hstep)
    as [Hsame|[Hk [(c' & Hpc & _)|(c' & _ & _ & Hnone)]]]; [| |congruence].
  - rewrite Hsame in Hm. destruct (Hkeys _ _ Hm) as (t0 & th0 & Hth0 & Hk0 & Hp0).
    destruct (decide (t0 = t)) as [->|Hne].
    + assert (th0 = th) as -> by congruence.
      exists t, (at_pc p' th). rewrite Hths, list_lookup_alter_eq, Hth. auto.
    + exists t0, th0. by rewrite Hths, list_lookup_alter_ne.
  - exists t, (at_pc p' th). rewrite Hths, list_lookup_alter_eq, Hth.
    split_and!; [done..|]. apply Hp'. right. eauto.
Qed.

Lemma inv_init ths (w : W) :
  Forall (λ th, t_pc th = L53) ths → inv (SingleFlight_init ths w).
Proof.
  intros Hths. split_and!.
  - by apply state_ok_init.
  - done.
  - intros l Hl. simpl in Hl. lia.
  - intros k c Hm. simpl in Hm. by rewrite lookup_empty in Hm.
Qed.

Lemma inv_step t s s' : inv s → step impl t s = Some s' → inv s'.
Proof.
  intros (Hs & Hown & Hrecs & Hkeys) Hstep.
  split_and!; eauto using state_ok_step, records_ok_step, keys_held_step.
  eapply lock_owned_step; [apply Hs|done..].
Qed.

Lemma inv_run sched s : inv s → inv (run impl sched s).
Proof.
  revert s. induction sched as [|t sched IH]; intros s Hs; simpl; [done|].
  apply IH. destruct (step impl t s) eqn:E; simpl; eauto using inv_step.
Qed.

Lemma inv_reach ths (w : W) sched :
  entering ths → inv (run impl sched (SingleFlight_init ths w)).
Proof. intros Hths. by apply inv_run, inv_init. Qed.

Lemma leader_ok_leads s t th c :
  leader_ok s t th → leads (t_pc th) = Some c → exec_ok t (t_key th) c s.
Proof. unfold leader_ok. destruct (t_pc th); simpl; intros ? [= <-]; done. Qed.

(** X1.  In every state a [SingleFlight] and its callers reach, the lock is
    held by a caller exactly when that caller is between lines 61 and 74 or
    between lines 93 and 94, and two callers are never there together: no
    caller holds the lock while it invokes the operation, sleeps or waits
    for a completion signal. *)
Theorem lock_held_in_critical_section ths (w : W) sched t th :
  entering ths →
  threads (run impl sched (SingleFlight_init ths w)) !! t = Some th →
  (lock (run impl sched (SingleFlight_init ths w)) = Some t ↔ in_cs (t_pc th) = true)
  ∧ ∀ t' th', threads (run impl sched (SingleFlight_init ths w)) !! t' = Some th' →
      in_cs (t_pc th) = true → in_cs (t_pc th') = true → t' = t.
Proof.
  intros Hths Hth.
  pose proof (inv_reach ths w sched Hths) as ((Hlock & _) & Hown & _).
  split_and!.
  - split.
    + intros Hlk. unfold lock_owned in Hown. by rewrite Hlk, Hth in Hown.
    + by apply (proj1 (all_threads_lookup _ _) Hlock).
  - intros t' th' Hth' Hcs Hcs'. by eapply lock_excl.
Qed.

(** X2.  In every state a [SingleFlight] and its callers reach, while a
    caller is between the invocation of the operation (line 77) and the
    removal of its key (line 93), the registry maps its key to its record,
    the record exists, and no other caller with that key is on the leader
    path (lines 72 to 93): a key has one leader at a time, and the leader's
    [del] finds the key. *)
Theorem one_leader_per_key ths (w : W) sched t th c :
  entering ths →
  threads (run impl sched (SingleFlight_init ths w)) !! t = Some th →
  leads (t_pc th) = Some c →
  m (run impl sched (SingleFlight_init ths w)) !! t_key th = Some c
  ∧ is_Some (heap (run impl sched (SingleFlight_init ths w)) !! c)
  ∧ ∀ t' th', threads (run impl sched (SingleFlight_init ths w)) !! t' = Some th' →
      t_key th' = t_key th → t' ≠ t → on_leader_path (t_pc th') = false.
Proof.
  intros Hths Hth Hc.
  pose proof (inv_reach ths w sched Hths) as (Hs & _).
  destruct (state_ok_elim _ _ _ Hs Hth) as [_ Hl].
  pose proof (leader_ok_leads _ _ _ _ Hl Hc) as Hok.
  split_and!.
  - by destruct Hok as (_ & ? & _).
  - apply exec_ok_rec_inv, rec_inv_elim in Hok as (r & _ & -> & _). eauto.
  - intros t' th' Hth' Hk Hne.
    destruct (exec_ok_elim _ _ _ _ _ _ Hok Hth') as (_ & _ & Hkc).
    unfold key_claim in Hkc. specialize (Hkc Hk).
    destruct (t_pc th'); simpl; try done; by destruct Hkc.
Qed.

(** X3.  Whatever the other callers do and whatever the schedule: once a
    caller has reached line 77 with its record, and has later left [call],
    exactly one invocation was made for that record, by that caller, with
    the operation and the arguments it was called with, and [call] ended the
    way this invocation ended: with the value it returned or the exception
    it raised. *)
Theorem leader_outcome ths (w : W) sched sched' t th l o :
  entering ths →
  threads (run impl sched (SingleFlight_init ths w)) !! t = Some th →
  t_pc th = L77 l →
  result_of t (run impl sched' (run impl sched (SingleFlight_init ths w))) = Some o →
  calls_for l (calls (run impl sched' (run impl sched (SingleFlight_init ths w))))
  = [MkInvocation t l (t_key th) (t_fn th) (t_args th) (t_kwargs th) o].
Proof.
  intros Hths Hth Hpc Hres.
  pose proof (inv_reach ths w sched Hths) as (Hs & _).
  destruct (state_ok_elim _ _ _ Hs Hth) as [_ Hl].
  assert (exec_ok t (t_key th) l (run impl sched (SingleFlight_init ths w))) as Hok.
  { apply leader_ok_leads; [done|]. by rewrite Hpc. }
  pose proof (leading_start _ _ _ _ _ Hok Hth Hpc eq_refl) as Hlead.
  apply (leading_run _ _ _ _ sched') in Hlead.
  by apply (leading_result _ _ _ _ _ _ Hlead).
Qed.

Lemma leader_rec_calls tl l th r cs :
  leader_rec tl l th r cs → cs = [] ∨ ∃ o, cs = [mk_inv tl l th o].
Proof.
  assert (completed tl l th r cs → cs = [] ∨ ∃ o, cs = [mk_inv tl l th o]) as Hc.
  { unfold completed, recorded, abandoned. destruct (ev r).
    - intros [-> _]. eauto.
    - destruct cs as [|i [|j cs]]; try done. destruct (inv_result i); [done|].
      intros [-> _]. eauto. }
  unfold leader_rec. destruct (t_pc th); repeat case_decide; try done;
    try (by intros [_ ?]; auto); unfold recorded; intros ?; destruct_and?; subst; eauto.
Qed.

Lemma calls_for_above n l cs :
  Forall (λ i, inv_cl i < n) cs → n ≤ l → calls_for l cs = [].
Proof.
  unfold calls_for. induction 1 as [|i cs Hi _ IH]; intros Hl; [done|].
  rewrite filter_cons, decide_False by lia. auto.
Qed.

Lemma length_filter_filter {A} (P Q : A → Prop) `{∀ x, Decision (P x)} `{∀ x, Decision (Q x)}
    (xs : list A) :
  length (filter Q (filter P xs)) ≤ length (filter Q xs).
Proof.
  induction xs as [|x xs IH]; [done|].
  rewrite !filter_cons. repeat case_decide; simpl; rewrite ?filter_cons;
    repeat case_decide; simpl; try done; lia.
Qed.

(** A log with at most one invocation for each of [n] records has at most
    [n] invocations. *)
Lemma calls_bounded n cs :
  Forall (λ i, inv_cl i < n) cs → (∀ l, length (calls_for l cs) ≤ 1) → length cs ≤ n.
Proof.
  revert cs. induction n as [|n IH]; intros cs Hlt Hone.
  { destruct cs as [|i cs]; [done|]. apply Forall_cons in Hlt as [? _]. lia. }
  pose proof (filter_app_complement (λ i, inv_cl i = n) cs) as Hperm.
  apply Permutation_length in Hperm. rewrite length_app in Hperm.
  specialize (Hone n) as Hn. unfold calls_for in Hn.
  assert (length (filter (λ i, ¬ inv_cl i = n) cs) ≤ n); [|lia].
  apply IH.
  - apply Forall_forall. intros i [Hne Hi]%list_elem_of_filter.
    rewrite Forall_forall in Hlt. specialize (Hlt _ Hi). simpl in Hlt. lia.
  - intros l. unfold calls_for. etrans; [apply length_filter_filter|apply Hone].
Qed.

(** X4.  In every state a [SingleFlight] and its callers reach: no record
    has more than one invocation of an operation; every invocation was made
    for an existing record by a caller, with that caller's own operation,
    key and arguments; and so the invocations never outnumber the records
    created. *)
Theorem one_invocation_per_record ths (w : W) sched :
  entering ths →
  (∀ l, length (calls_for l (calls (run impl sched (SingleFlight_init ths w)))) ≤ 1)
  ∧ (∀ i, i ∈ calls (run impl sched (SingleFlight_init ths w)) →
       inv_cl i < length (heap (run impl sched (SingleFlight_init ths w)))
       ∧ ∃ th, threads (run impl sched (SingleFlight_init ths w)) !! inv_tid i = Some th
           ∧ inv_fn i = t_fn th ∧ inv_key i = t_key th
           ∧ inv_args i = t_args th ∧ inv_kwargs i = t_kwargs th)
  ∧ length (calls (run impl sched (SingleFlight_init ths w)))
    ≤ length (heap (run impl sched (SingleFlight_init ths w))).
Proof.
  intros Hths.
  pose proof (inv_reach ths w sched Hths) as ((_ & Hfresh & _) & _ & Hrecs & _).
  set (s := run impl sched (SingleFlight_init ths w)) in *.
  assert (∀ l, l < length (heap s) →
            calls_for l (calls s) = []
            ∨ ∃ tl th o, threads s !! tl = Some th
                ∧ calls_for l (calls s) = [mk_inv tl l th o]) as Hform.
  { intros l Hl. destruct (Hrecs l Hl) as [[tl Hrec]|(_ & _ & _ & _ & ?)]; [|by left].
    apply rec_inv_elim in Hrec as (r & th & _ & Hth & Hlr & _).
    destruct (leader_rec_calls _ _ _ _ _ Hlr) as [?|[o ?]]; [by left|right]. eauto. }
  assert (∀ l, length (calls_for l (calls s)) ≤ 1) as Hone.
  { intros l. destruct (decide (l < length (heap s))) as [Hl|Hl].
    - destruct (Hform l Hl) as [->|(? & ? & ? & _ & ->)]; simpl; lia.
    - rewrite (calls_for_above (length (heap s))); [simpl; lia|done|lia]. }
  split_and!; [done| |by apply calls_bounded].
  intros i Hi. rewrite Forall_forall in Hfresh. pose proof (Hfresh _ Hi) as Hl.
  simpl in Hl. split; [done|].
  assert (i ∈ calls_for (inv_cl i) (calls s)) as Hin
    by (by apply list_elem_of_filter).
  destruct (Hform _ Hl) as [Hnil|(tl & th & o & Hth & Hcs)];
    rewrite ?Hnil, ?Hcs in Hin; [by apply elem_of_nil in Hin|].
  apply list_elem_of_singleton in Hin as ->. exists th. by simpl.
Qed.

(** X5.  While the record of an execution is registered, a caller with its
    key that has left [call] after the operation raised an exception whose
    truth value is false did not raise that exception: it returned [None],
    the contents of the result slot, because line 68 tests the truth value of
    the failure slot where line 95, for the leader, tests [is not None]. *)
Theorem falsy_failure_read_as_success tl tf k l s sched o i e :
  exec_ok tl k l s → follower tf k l s → m (run impl sched s) !! k = Some l →
  result_of tf (run impl sched s) = Some o →
  i ∈ calls_for l (calls (run impl sched s)) → inv_result i = Raise e →
  exn_truthy e = false →
  o = Return PNone.
Proof.
  intros Hok Hf Hreg Hres Hi He Hfalse.
  pose proof (exec_ok_run _ _ _ _ _ Hok Hreg) as Hok'.
  pose proof (follower_run _ _ _ _ _ _ Hok Hf Hreg) as Hf'.
  pose proof (exec_ok_rec_inv _ _ _ _ Hok') as (r & thl & Hr & Hthl & Hl & _)%rec_inv_elim.
  unfold follower, result_of in *. rewrite Hr in Hf'.
  destruct (threads (run impl sched s) !! tf) as [th|]; [|done]. simpl in Hres.
  destruct Hf' as [_ Hf']. destruct (t_pc th); try done. destruct Hf' as [Hev ->].
  simplify_eq.
  destruct (leader_rec_recorded _ _ _ _ _ Hl (or_intror Hev)) as [Hcs Hslots].
  rewrite Hcs in Hi. apply list_elem_of_singleton in Hi as ->.
  unfold mk_inv, outcome_in, follower_outcome in *. simpl in He.
  destruct (err r) as [e'|]; [|done]. simplify_eq. rewrite Hfalse.
  by destruct Hslots as [_ ->].
Qed.

(** Where a caller that is on the follower path, past line 87, or out of
    [call] after a step, was before the step. *)
Lemma step_origin t s s' th :
  threads s !! t = Some th → step impl t s = Some s' →
  ∃ p', threads s' = alter (at_pc p') t (threads s)
    ∧ (follows p' = true →
       follows (t_pc th) = true ∨ (t_pc th = L61 ∧ is_Some (m s !! t_key th)))
    ∧ (∀ c, late p' = Some c →
         late (t_pc th) = Some c
         ∨ (t_pc th = L87 c ∧ ∀ r, heap s !! c = Some r → fired c s'))
    ∧ (∀ o, p' = Done o →
         (t_pc th = L53 ∧ is_str (t_key th) = false
          ∧ o = Raise (TypeError "Key should be a str"))
         ∨ (t_pc th = L55 ∧ is_callable (t_fn th) = false
            ∧ o = Raise (TypeError "fn should be a callable"))
         ∨ (in_cs (t_pc th) = true ∧ lock s = None)
         ∨ follows (t_pc th) = true
         ∨ (∃ c, t_pc th = L93 c ∧ m s !! t_key th = None)
         ∨ (∃ c e, t_pc th = L77 c ∧ o = Raise e
              ∧ calls s' = calls s ++ [mk_inv t c th o])
         ∨ (∃ c r, t_pc th = L95 c ∧ heap s !! c = Some r ∧ o = outcome_in r
              ∧ calls s' = calls s)).
Proof.
  intros Hth' H. step_inv H; eexists; (split; [reflexivity|]); simpl;
    rewrite ?Hpc; simpl; (split; [naive_solver|]);
    (split; [try naive_solver|intros ? [= <-] || (intros; done)]).
  all: try (intros c [= <-]; right; split; [done|]; intros r' Hr';
            unfold fired; simpl; by rewrite list_lookup_alter_eq, Hr').
  all: try (by left; auto).
  all: try (by right; left; auto).
  all: try (by right; right; left; auto).
  all: try (by do 3 right; left).
  all: try (by do 4 right; left; eauto).
  all: try (by do 5 right; left; eauto 10).
  all: do 6 right; eexists _, _; split_and!; [done..| |done];
    unfold outcome_in; by rewrite H.
Qed.

Lemma keys_step t s s' :
  step impl t s = Some s' → t_key <$> threads s' = t_key <$> threads s.
Proof.
  intros Hstep.
  destruct (threads s !! t) as [th|] eqn:Hth; [|by unfold step in Hstep; rewrite Hth in Hstep].
  destruct (step_frame _ _ _ _ Hth Hstep) as (p' & -> & _).
  apply list_eq. intros i. rewrite !list_lookup_fmap.
  destruct (decide (i = t)) as [->|Hne].
  - by rewrite list_lookup_alter_eq, Hth.
  - by rewrite list_lookup_alter_ne.
Qed.

Lemma keys_run sched s : t_key <$> threads (run impl sched s) = t_key <$> threads s.
Proof.
  revert s. induction sched as [|t sched IH]; intros s; simpl; [done|].
  rewrite IH. destruct (step impl t s) eqn:E; simpl; eauto using keys_step.
Qed.

Lemma key_inj s t t' th th' :
  NoDup (t_key <$> threads s) →
  threads s !! t = Some th → threads s !! t' = Some th' → t_key th = t_key th' → t = t'.
Proof.
  intros Hnd Hth Hth' Hk. eapply (NoDup_lookup _ _ _ (t_key th) Hnd).
  - by rewrite list_lookup_fmap, Hth.
  - by rewrite list_lookup_fmap, Hth', Hk.
Qed.

Lemma all_lead_step t s s' :
  inv s → NoDup (t_key <$> threads s) → all_lead s →
  step impl t s = Some s' → all_lead s'.
Proof.
  intros (Hs & _ & _ & Hkeys) Hnd (Hnf & Hlate & Hown) Hstep.
  destruct (threads s !! t) as [th|] eqn:Hth; [|by unfold step in Hstep; rewrite Hth in Hstep].
  destruct (step_origin _ _ _ _ Hth Hstep) as (p' & Hths & Hfol & Hlt & Hdone).
  destruct (step_frame _ _ _ _ Hth Hstep) as (p'' & Hths' & _ & _ & Hcalls).
  destruct (state_ok_elim _ _ _ Hs Hth) as [Hlk Hl].
  pose proof (proj1 (all_threads_lookup _ _) Hnf _ _ Hth) as Hnft. simpl in Hnft.
  pose proof (proj1 (all_threads_lookup _ _) Hlate _ _ Hth) as Hlatet.
  split_and!.
  - eapply all_threads_alter; [exact Hths|exact Hth|exact Hnf| |by intros].
    intros _. simpl. destruct (follows p') eqn:Hp'; [|done].
    destruct (Hfol eq_refl) as [?|[Hpc [c Hc]]]; [congruence|].
    destruct (Hkeys _ _ Hc) as (t0 & th0 & Hth0 & Hk0 & Hp0).
    assert (t0 = t) as -> by (by eapply key_inj).
    assert (th0 = th) as -> by congruence. by rewrite Hpc in Hp0.
  - eapply all_threads_alter; [exact Hths|exact Hth|exact Hlate| |].
    + intros _ c Hc. simpl in Hc.
      destruct (Hlt _ Hc) as [Hc'|[Hpc Hf]].
      * destruct (Hlatet _ Hc'). eauto using rec_inv_step, fired_step.
      * assert (exec_ok t (t_key th) c s) as Hok
          by (apply leader_ok_leads; [done|by rewrite Hpc]).
        pose proof (exec_ok_rec_inv _ _ _ _ Hok) as Hrec.
        split; [by eapply rec_inv_step|].
        apply rec_inv_elim in Hrec as (r & _ & Hr & _). eauto.
    + intros t' th' _ _ Hl' c Hc. destruct (Hl' _ Hc).
      eauto using rec_inv_step, fired_step.
  - eapply all_threads_alter; [exact Hths|exact Hth|exact Hown| |].
    + intros _. unfold own_outcome. simpl. destruct p' as [| | | | | | | | | | | | | | | | | | | | | | |o];
        try done.
      destruct (Hdone o eq_refl)
        as [(_ & ? & ?)|[(_ & ? & ?)|[[Hcs Hnone]|[?|[(c & Hpc & Hnone)
           |[(c & e & Hpc & -> & Hcs)|(c & r & Hpc & Hr & -> & Hcs)]]]]]].
      * by left.
      * right. by left.
      * specialize (Hlk Hcs). congruence.
      * congruence.
      * assert (exec_ok t (t_key th) c s) as Hok
          by (apply leader_ok_leads; [done|by rewrite Hpc]).
        destruct Hok as (_ & ? & _). congruence.
      * assert (exec_ok t (t_key th) c s) as Hok
          by (apply leader_ok_leads; [done|by rewrite Hpc]).
        pose proof (exec_ok_rec_inv _ _ _ _ Hok) as Hrec.
        right. right. exists c. split; [by eapply rec_inv_step|].
        apply rec_inv_elim in Hrec as (r & th1 & _ & Hth1 & Hlr & _).
        assert (th1 = th) as -> by congruence.
        unfold leader_rec in Hlr. rewrite Hpc, decide_True in Hlr by done.
        destruct Hlr as [_ Hnil]. rewrite Hcs, calls_for_snoc, Hnil.
        by rewrite decide_True.
      * destruct (Hlatet c) as [Hrec Hf]; [by rewrite Hpc|].
        right. right. exists c. split; [by eapply rec_inv_step|]. rewrite Hcs.
        apply rec_inv_elim in Hrec as (r1 & th1 & Hr1 & Hth1 & Hlr & _).
        assert (th1 = th) as -> by congruence. assert (r1 = r) as -> by congruence.
        unfold fired in Hf. rewrite Hr in Hf.
        by destruct (leader_rec_recorded _ _ _ _ _ Hlr (or_intror Hf)) as [-> _].
    + intros t' th' Hne Hth' Ho. unfold own_outcome in *.
      destruct (t_pc th'); try done.
      destruct Ho as [?|[?|(l & Hrec & Hcs)]]; [by left|by right; left|].
      right. right. exists l. split; [by eapply rec_inv_step|].
      rewrite Hcalls; [done|].
      apply rec_inv_elim in Hrec as (_ & _ & _ & _ & _ & Hno). by eapply Hno.
Qed.

Lemma all_lead_run sched s :
  inv s → NoDup (t_key <$> threads s) → all_lead s → all_lead (run impl sched s).
Proof.
  revert s. induction sched as [|t sched IH]; intros s Hs Hnd Hal; simpl; [done|].
  destruct (step impl t s) as [s'|] eqn:E; simpl; [|by apply IH].
  apply IH; [by eapply inv_step|by rewrite (keys_step _ _ _ E)|by eapply all_lead_step].
Qed.

(** X6.  Callers whose keys are pairwise different are never coalesced: in
    every state they reach none of them is on the follower path, and each
    one that has left [call] did so by one of the two argument checks or
    with the outcome of the one invocation made, with its own operation and
    arguments, for the record it created. *)
Theorem distinct_keys_never_coalesce ths (w : W) sched t th :
  entering ths → NoDup (t_key <$> ths) →
  threads (run impl sched (SingleFlight_init ths w)) !! t = Some th →
  follows (t_pc th) = false
  ∧ ∀ o, t_pc th = Done o →
      (is_str (t_key th) = false ∧ o = Raise (TypeError "Key should be a str"))
      ∨ (is_callable (t_fn th) = false ∧ o = Raise (TypeError "fn should be a callable"))
      ∨ ∃ l, calls_for l (calls (run impl sched (SingleFlight_init ths w)))
             = [MkInvocation t l (t_key th) (t_fn th) (t_args th) (t_kwargs th) o].
Proof.
  intros Hths Hnd Hth.
  assert (all_lead (SingleFlight_init ths w)) as Hal.
  { unfold entering in Hths. rewrite Forall_lookup in Hths.
    split_and!; apply all_threads_lookup; intros t' th' Hth'; simpl in Hth';
      pose proof (Hths _ _ Hth') as Hpc.
    - by rewrite Hpc.
    - intros c. by rewrite Hpc.
    - unfold own_outcome. by rewrite Hpc. }
  apply (all_lead_run sched) in Hal as (Hnf & _ & Hown); [|by apply inv_init|done].
  split; [by apply (proj1 (all_threads_lookup _ _) Hnf _ _ Hth)|].
  intros o Hpc. pose proof (proj1 (all_threads_lookup _ _) Hown _ _ Hth) as Ho.
  unfold own_outcome in Ho. rewrite Hpc in Ho.
  destruct Ho as [?|[?|(l & _ & ?)]]; eauto.
Qed.

(** The caller that holds the lock is never blocked, and its step releases
    the lock or brings the release nearer. *)
Lemma cs_step t s th :
  threads s !! t = Some th → in_cs (t_pc th) = true → lock s = Some t →
  ∃ s', step impl t s = Some s'
    ∧ (lock s' = None
       ∨ lock s' = Some t ∧ ∃ p', threads s' !! t = Some (at_pc p' th)
           ∧ in_cs p' = true ∧ cs_left p' < cs_left (t_pc th)).
Proof.
  intros Hth Hcs Hlk. unfold step. rewrite Hth. simpl. unfold exec_line, release.
  destruct (t_pc th) eqn:Hpc; try done; rewrite ?Hlk; simpl;
    repeat case_match; eexists; (split; [reflexivity|]); simpl; auto.
  all: right; split; [done|]; eexists; rewrite list_lookup_alter_eq, Hth; simpl;
    (split; [reflexivity|]); simpl; split; [done|lia].
Qed.

Lemma cs_run t (n0 : nat) s th :
  threads s !! t = Some th → in_cs (t_pc th) = true → lock s = Some t →
  cs_left (t_pc th) ≤ n0 →
  ∃ n, n ≤ n0 ∧ lock (run impl (replicate n t) s) = None.
Proof.
  revert s th. induction n0 as [|n0 IH]; intros s th Hth Hcs Hlk Hk.
  { destruct (t_pc th); simpl in *; try done; lia. }
  destruct (cs_step _ _ _ Hth Hcs Hlk) as (s' & Hstep & [Hnone|(Hlk' & p' & Hth' & Hcs' & Hlt)]).
  - exists 1. split; [lia|]. simpl. by rewrite Hstep.
  - destruct (IH s' (at_pc p' th)) as (n & Hn & Hrun); [done..|simpl; lia|].
    exists (S n). split; [lia|]. simpl. by rewrite Hstep.
Qed.

(** X7.  In every state a [SingleFlight] and its callers reach, the caller
    that holds the lock is not blocked, and at most four of its own turns
    release the lock: the lock is never held across the invocation of the
    operation, the sleep or the wait for a completion signal. *)
Theorem lock_released_within_four_turns ths (w : W) sched t :
  entering ths →
  lock (run impl sched (SingleFlight_init ths w)) = Some t →
  is_Some (step impl t (run impl sched (SingleFlight_init ths w)))
  ∧ ∃ n, n ≤ 4
      ∧ lock (run impl (replicate n t) (run impl sched (SingleFlight_init ths w))) = None.
Proof.
  intros Hths Hlk.
  pose proof (inv_reach ths w sched Hths) as (_ & Hown & _).
  unfold lock_owned in Hown. rewrite Hlk in Hown.
  destruct (threads (run impl sched (SingleFlight_init ths w)) !! t) as [th|] eqn:Hth;
    [|done].
  split.
  - destruct (cs_step _ _ _ Hth Hown Hlk) as (s' & -> & _). eauto.
  - eapply cs_run; [done..|]. destruct (t_pc th); simpl; lia.
Qed.


(** X9.  Followers cannot hold up a leader: in every state a [SingleFlight]
    and its callers reach, a caller that is about to invoke its operation
    (line 77) while the lock is free completes its call in nine turns of its
    own: the operation is invoked, its outcome is stored in the record, the
    key is removed from the registry, and [call] ends the way the operation
    ended. *)
Theorem leader_completes ths (w : W) sched t th l o w' :
  entering ths →
  threads (run impl sched (SingleFlight_init ths w)) !! t = Some th →
  t_pc th = L77 l →
  lock (run impl sched (SingleFlight_init ths w)) = None →
  invoke impl (t_fn th) (t_args th) (t_kwargs th)
    (world (run impl sched (SingleFlight_init ths w))) = (o, w') →
  caught o = true →
  result_of t (run impl (replicate 9 t) (run impl sched (SingleFlight_init ths w)))
  = Some o
  ∧ m (run impl (replicate 9 t) (run impl sched (SingleFlight_init ths w))) !! t_key th
    = None
  ∧ heap (run impl (replicate 9 t) (run impl sched (SingleFlight_init ths w))) !! l
    = Some (slots_of o)
  ∧ world (run impl (replicate 9 t) (run impl sched (SingleFlight_init ths w))) = w'.
Proof.
  intros Hths Hth Hpc Hlk Hop Hc.
  pose proof (inv_reach ths w sched Hths) as (Hs & _).
  destruct (state_ok_elim _ _ _ Hs Hth) as [_ Hl].
  assert (exec_ok t (t_key th) l (run impl sched (SingleFlight_init ths w))) as Hok.
  { apply leader_ok_leads; [done|]. by rewrite Hpc. }
  pose proof (exec_ok_rec_inv _ _ _ _ Hok) as (r & th1 & Hr & Hth1 & Hlr & _)%rec_inv_elim.
  assert (th1 = th) as -> by congruence.
  unfold leader_rec in Hlr. rewrite Hpc, decide_True in Hlr by done.
  destruct Hlr as [Hev _]. destruct Hok as (_ & Hreg & _).
  rewrite (complete_solo _ _ _ _ _ _ _ Hth Hpc Hlk Hreg Hr Hev Hop Hc).
  cbn [m heap world]. split_and!; [|by rewrite lookup_delete_eq| |done].
  - unfold result_of. cbn [threads]. by rewrite list_lookup_alter_eq, Hth.
  - apply list_lookup_insert_eq. by eapply lookup_lt_Some.
Qed.

End Theory.

(** ** The theorems at work on the example callers *)

Lemma coalesced_while_registered_witness :
  exec_ok 0 (PStr "k") 0 (fired_flight (PFun 0) 2)
  ∧ m (run ops [1; 1; 1; 1; 1] (fired_flight (PFun 0) 2)) !! PStr "k" = Some 0
  ∧ length (calls_for 0 (calls (run ops [1; 1; 1; 1; 1] (fired_flight (PFun 0) 2)))) ≤ 1.
Proof.
  assert (exec_ok 0 (PStr "k") 0 (fired_flight (PFun 0) 2)) as Hok
    by (apply (bool_decide_unpack _); vm_compute; exact I).
  assert (m (run ops [1; 1; 1; 1; 1] (fired_flight (PFun 0) 2)) !! PStr "k" = Some 0)
    as Hreg by (vm_compute; reflexivity).
  destruct (coalesced_while_registered ops 0 (PStr "k") 0 (fired_flight (PFun 0) 2)
              [1; 1; 1; 1; 1] Hok Hreg) as [Hlen _].
  split_and!; [exact Hok|exact Hreg|exact Hlen].
Defined.

(** C1.  The code at two callers of [call(fn, "k")], where it fails the
    claim: caller 1 finds the key registered while the execution of caller 0
    is in flight (it is a follower, about to execute line 66), is given no
    turn until caller 0 has slept and removed the record, and then leaves
    [call] with [KeyError("k")] from [self.m[key]], although the operation
    was invoked exactly once and returned 0.  The follower path looks the
    record up again after releasing the lock, where the leader path keeps
    it in [cl]. *)
Lemma late_follower_gets_KeyError :
  exec_ok 0 (PStr "k") 0 (in_flight (PFun 0) 2)
  ∧ follower 1 (PStr "k") 0 (in_flight (PFun 0) 2)
  ∧ pc_of 1 (in_flight (PFun 0) 2) = Some L66
  ∧ result_of 0 (run ops (replicate 9 0 ++ [1]) (in_flight (PFun 0) 2))
    = Some (Return (PInt 0))
  ∧ length (calls (run ops (replicate 9 0 ++ [1]) (in_flight (PFun 0) 2))) = 1
  ∧ result_of 1 (run ops (replicate 9 0 ++ [1]) (in_flight (PFun 0) 2))
    = Some (Raise (KeyError (PStr "k")))
  ∧ result_of 1 (run ops (replicate 9 0 ++ [1]) (in_flight (PFun 0) 2))
    ≠ Some (Return (PInt 0)).
Proof.
  split_and!.
  - apply (bool_decide_unpack _). vm_compute. exact I.
  - apply (bool_decide_unpack _). vm_compute. exact I.
  - vm_compute. reflexivity.
  - vm_compute. reflexivity.
  - vm_compute. reflexivity.
  - vm_compute. reflexivity.
  - vm_compute. discriminate.
Qed.

Lemma follower_reads_registry_witness :
  threads (fired_flight (PFun 0) 2) !! 1 = Some (at_pc L66 (call (PFun 0) (PStr "k") [] ∅))
  ∧ along ops (serves (PStr "k") 0 (MkCallLock true (PInt 0) None)) [1; 1; 1; 1]
      (fired_flight (PFun 0) 2)
  ∧ 4 ≤ turns 1 [1; 1; 1; 1]
  ∧ result_of 1 (run ops [1; 1; 1; 1] (fired_flight (PFun 0) 2)) = Some (Return (PInt 0)).
Proof.
  assert (threads (fired_flight (PFun 0) 2) !! 1
          = Some (at_pc L66 (call (PFun 0) (PStr "k") [] ∅))) as Hth
    by (vm_compute; reflexivity).
  assert (along ops (serves (PStr "k") 0 (MkCallLock true (PInt 0) None)) [1; 1; 1; 1]
            (fired_flight (PFun 0) 2)) as Hal
    by (apply (bool_decide_unpack _); vm_compute; exact I).
  assert (4 ≤ turns 1 [1; 1; 1; 1]) as Hturns by (vm_compute; lia).
  destruct (follower_reads_registry ops 1 (PStr "k") 0 (MkCallLock true (PInt 0) None)
              (fired_flight (PFun 0) 2) [1; 1; 1; 1]
              (at_pc L66 (call (PFun 0) (PStr "k") [] ∅))
              Hth eq_refl eq_refl eq_refl Hal Hturns) as [Hres _].
  split_and!; [exact Hth|exact Hal|exact Hturns|exact Hres].
Defined.

(** C2.  The code at three callers of [call(fn, "k")], where it fails the
    claim: caller 1 waits on the event of record 0; caller 0 completes with
    the value 0 and removes the record; caller 2 registers record 1 for a
    new execution; caller 1 then reads the failure and the result through
    the registry (lines 68 and 70), from record 1, which nobody has written
    yet, and returns [None]: not the value 0 of the record it waited on.
    The follower holds no reference to the record it found. *)
Lemma follower_reads_another_record :
  pc_of 1 (run ops (replicate 7 0 ++ replicate 6 1) (callers (PFun 0) 3)) = Some (L66w 0)
  ∧ heap (run ops (replicate 7 0 ++ replicate 6 1 ++ replicate 9 0 ++ [1]
                   ++ replicate 7 2 ++ [1; 1]) (callers (PFun 0) 3)) !! 0
    = Some (MkCallLock true (PInt 0) None)
  ∧ m (run ops (replicate 7 0 ++ replicate 6 1 ++ replicate 9 0 ++ [1]
                ++ replicate 7 2 ++ [1; 1]) (callers (PFun 0) 3)) !! PStr "k" = Some 1
  ∧ heap (run ops (replicate 7 0 ++ replicate 6 1 ++ replicate 9 0 ++ [1]
                   ++ replicate 7 2 ++ [1; 1]) (callers (PFun 0) 3)) !! 1
    = Some CallLock_init
  ∧ result_of 1 (run ops (replicate 7 0 ++ replicate 6 1 ++ replicate 9 0 ++ [1]
                          ++ replicate 7 2 ++ [1; 1]) (callers (PFun 0) 3))
    = Some (Return PNone)
  ∧ result_of 1 (run ops (replicate 7 0 ++ replicate 6 1 ++ replicate 9 0 ++ [1]
                          ++ replicate 7 2 ++ [1; 1]) (callers (PFun 0) 3))
    ≠ Some (follower_outcome (MkCallLock true (PInt 0) None)).
Proof.
  split_and!.
  - vm_compute. reflexivity.
  - vm_compute. reflexivity.
  - vm_compute. reflexivity.
  - vm_compute. reflexivity.
  - vm_compute. reflexivity.
  - vm_compute. discriminate.
Qed.

Lemma call_validates_witness :
  threads (callers PNone 1) !! 0 = Some (call PNone (PStr "k") [] ∅)
  ∧ result_of 0 (run ops [0; 0] (callers PNone 1))
    = Some (Raise (TypeError "fn should be a callable"))
  ∧ m (run ops [0; 0] (callers PNone 1)) = m (callers PNone 1).
Proof.
  destruct (call_validates ops 0 (callers PNone 1) PNone (PStr "k") [] ∅ eq_refl)
    as ((_ & Hm & _) & _ & Hfn & _).
  split_and!; [reflexivity|exact (Hfn eq_refl eq_refl)|exact Hm].
Defined.

(** The counterexample to C3 as stated: the empty string is a key like any
    other; the caller registers a record under it and returns the value of
    the operation. *)
Lemma empty_key_is_accepted :
  pc_of 0 (run ops [0; 0] (SingleFlight_init [call (PFun 0) (PStr "") [] ∅] 0)) = Some L60
  ∧ m (run ops (replicate 7 0) (SingleFlight_init [call (PFun 0) (PStr "") [] ∅] 0))
      !! PStr "" = Some 0
  ∧ result_of 0 (run ops (replicate 16 0) (SingleFlight_init [call (PFun 0) (PStr "") [] ∅] 0))
    = Some (Return (PInt 0)).
Proof.
  split_and!.
  - vm_compute. reflexivity.
  - vm_compute. reflexivity.
  - vm_compute. reflexivity.
Qed.

Lemma failure_shared_witness :
  threads (callers (PFun 1) 1) !! 0 = Some (call (PFun 1) (PStr "k") [] ∅)
  ∧ ops 1 [] ∅ (world (callers (PFun 1) 1)) = (Raise (ValueError "boom"), 1)
  ∧ exec_ok 0 (PStr "k") 0 (in_flight (PFun 1) 2)
  ∧ m (run ops [0; 0; 0; 0; 1; 1; 1; 1] (in_flight (PFun 1) 2)) !! PStr "k" = Some 0
  ∧ result_of 0 (run ops (replicate 16 0) (callers (PFun 1) 1))
    = Some (Raise (ValueError "boom"))
  ∧ (result_of 1 (run ops [0; 0; 0; 0; 1; 1; 1; 1] (in_flight (PFun 1) 2))
     = Some (Raise (ValueError "boom")) →
     ∃ i, calls_for 0 (calls (run ops [0; 0; 0; 0; 1; 1; 1; 1] (in_flight (PFun 1) 2))) = [i]
       ∧ inv_tid i = 0).
Proof.
  assert (exec_ok 0 (PStr "k") 0 (in_flight (PFun 1) 2)) as Hok
    by (apply (bool_decide_unpack _); vm_compute; exact I).
  assert (m (run ops [0; 0; 0; 0; 1; 1; 1; 1] (in_flight (PFun 1) 2)) !! PStr "k" = Some 0)
    as Hreg by (vm_compute; reflexivity).
  assert (follower 1 (PStr "k") 0 (in_flight (PFun 1) 2)) as Hf
    by (apply (bool_decide_unpack _); vm_compute; exact I).
  destruct (failure_shared ops 0 (callers (PFun 1) 1) 1 (PStr "k") [] ∅
              (ValueError "boom") 1 0 (PStr "k") 0 (in_flight (PFun 1) 2)
              [0; 0; 0; 0; 1; 1; 1; 1]
              eq_refl eq_refl eq_refl eq_refl eq_refl eq_refl Hok Hreg)
    as [(Hres & _) Hfol].
  split_and!; [reflexivity|reflexivity|exact Hok|exact Hreg|exact Hres|].
  intros Hres1. destruct (Hfol 1 _ Hf Hres1) as (i & Hi & Ht & _).
  exists i. split; [exact Hi|exact Ht].
Defined.

(** The counterexample to C4 as stated: the operation raises
    [KeyboardInterrupt]; the leader's call ends with it, but the failure is
    not recorded (the record is as [CallLock()] made it, the signal not
    fired) and the attached caller 1 gets nothing, however many turns it is
    given. *)
Lemma base_exception_is_not_shared :
  follower 1 (PStr "k") 0 (in_flight (PFun 2) 2)
  ∧ result_of 0 (run ops ([0] ++ replicate 8 1) (in_flight (PFun 2) 2))
    = Some (Raise KeyboardInterrupt)
  ∧ heap (run ops ([0] ++ replicate 8 1) (in_flight (PFun 2) 2)) !! 0 = Some CallLock_init
  ∧ result_of 1 (run ops ([0] ++ replicate 8 1) (in_flight (PFun 2) 2)) = None
  ∧ length (calls (run ops ([0] ++ replicate 8 1) (in_flight (PFun 2) 2))) = 1.
Proof.
  split_and!.
  - apply (bool_decide_unpack _). vm_compute. exact I.
  - vm_compute. reflexivity.
  - vm_compute. reflexivity.
  - vm_compute. reflexivity.
  - vm_compute. reflexivity.
Qed.

Lemma leader_invokes_once_witness :
  threads (callers (PFun 0) 1) !! 0 = Some (call (PFun 0) (PStr "k") [] ∅)
  ∧ lock (callers (PFun 0) 1) = None ∧ m (callers (PFun 0) 1) !! PStr "k" = None
  ∧ ops 0 [] ∅ (world (callers (PFun 0) 1)) = (Return (PInt 0), 1) ∧ 16 ≤ 16
  ∧ result_of 0 (run ops (replicate 16 0) (callers (PFun 0) 1)) = Some (Return (PInt 0))
  ∧ world (run ops (replicate 16 0) (callers (PFun 0) 1)) = 1.
Proof.
  destruct (leader_invokes_once ops 0 (callers (PFun 0) 1) 0 "k" [] ∅ (Return (PInt 0)) 1 16
              eq_refl eq_refl eq_refl eq_refl (le_n 16)) as (_ & Hw & Hres & _).
  split_and!; [reflexivity|reflexivity|reflexivity|reflexivity|exact (le_n 16)
              |exact Hres|exact Hw].
Defined.

Lemma slots_hold_outcome_witness :
  rec_inv 0 0 (in_flight (PFun 0) 2)
  ∧ heap (run ops [0; 0] (in_flight (PFun 0) 2)) !! 0 = Some (MkCallLock false (PInt 0) None)
  ∧ pc_of 0 (run ops [0; 0] (in_flight (PFun 0) 2)) = Some (L87 0)
  ∧ ∃ th o, calls_for 0 (calls (run ops [0; 0] (in_flight (PFun 0) 2))) = [mk_inv 0 0 th o]
      ∧ PInt 0 = res (slots_of o) ∧ None = err (slots_of o).
Proof.
  assert (rec_inv 0 0 (in_flight (PFun 0) 2)) as Hrec
    by (apply (bool_decide_unpack _); vm_compute; exact I).
  assert (heap (run ops [0; 0] (in_flight (PFun 0) 2)) !! 0
          = Some (MkCallLock false (PInt 0) None)) as Hr by (vm_compute; reflexivity).
  assert (pc_of 0 (run ops [0; 0] (in_flight (PFun 0) 2)) = Some (L87 0)) as Hpc
    by (vm_compute; reflexivity).
  destruct (slots_hold_outcome ops 0 0 (in_flight (PFun 0) 2) [0; 0]
              (MkCallLock false (PInt 0) None) Hrec Hr (or_introl Hpc))
    as (th & o & _ & Hcs & _ & Hres & Herr & _).
  split_and!; [exact Hrec|exact Hr|exact Hpc|].
  exists th, o. split_and!; [exact Hcs|exact Hres|exact Herr].
Defined.

(** The counterexample to C6 as stated: after an operation that raised
    [KeyboardInterrupt], and after an operation that returned [None], neither
    slot of the record holds anything but [None]. *)
Lemma neither_slot_set :
  result_of 0 (run ops (replicate 8 0) (callers (PFun 2) 1)) = Some (Raise KeyboardInterrupt)
  ∧ heap (run ops (replicate 8 0) (callers (PFun 2) 1)) !! 0
    = Some (MkCallLock false PNone None)
  ∧ pc_of 0 (run ops (replicate 10 0) (callers (PFun 3) 1)) = Some (L88 0)
  ∧ (inv_result <$> calls (run ops (replicate 10 0) (callers (PFun 3) 1))) = [Return PNone]
  ∧ heap (run ops (replicate 10 0) (callers (PFun 3) 1)) !! 0
    = Some (MkCallLock true PNone None).
Proof.
  split_and!.
  - vm_compute. reflexivity.
  - vm_compute. reflexivity.
  - vm_compute. reflexivity.
  - vm_compute. reflexivity.
  - vm_compute. reflexivity.
Qed.

Lemma next_call_runs_again_witness :
  0 ≠ 1 ∧ lock (callers (PFun 0) 2) = None ∧ m (callers (PFun 0) 2) !! PStr "k" = None
  ∧ ops 0 [] ∅ (world (callers (PFun 0) 2)) = (Return (PInt 0), 1)
  ∧ ops 0 [] ∅ 1 = (Return (PInt 1), 2)
  ∧ result_of 0 (run ops (replicate 16 0) (callers (PFun 0) 2)) = Some (Return (PInt 0))
  ∧ result_of 1 (run ops (replicate 16 1) (run ops (replicate 16 0) (callers (PFun 0) 2)))
    = Some (Return (PInt 1)).
Proof.
  destruct (next_call_runs_again ops 0 1 (callers (PFun 0) 2) 0 0 (PStr "k") [] ∅ [] ∅
              (Return (PInt 0)) 1 (Return (PInt 1)) 2
              (O_S 0) eq_refl eq_refl eq_refl eq_refl eq_refl eq_refl eq_refl eq_refl)
    as (Hres1 & _ & _ & Hres2).
  split_and!; [exact (O_S 0)|reflexivity|reflexivity|reflexivity|reflexivity
              |exact Hres1|exact Hres2].
Defined.


Lemma base_exception_wedges_key_witness :
  exec_ok 0 (PStr "k") 0 (in_flight (PFun 2) 2)
  ∧ threads (in_flight (PFun 2) 2) !! 0
    = Some (at_pc (L77 0) (call (PFun 2) (PStr "k") [] ∅))
  ∧ invoke ops (PFun 2) [] ∅ (world (in_flight (PFun 2) 2)) = (Raise KeyboardInterrupt, 1)
  ∧ ∃ s1, step ops 0 (in_flight (PFun 2) 2) = Some s1
      ∧ result_of 0 s1 = Some (Raise KeyboardInterrupt)
      ∧ m (run ops (replicate 20 1) s1) !! PStr "k" = Some 0
      ∧ result_of 1 (run ops (replicate 20 1) s1) = None.
Proof.
  assert (exec_ok 0 (PStr "k") 0 (in_flight (PFun 2) 2)) as Hok
    by (apply (bool_decide_unpack _); vm_compute; exact I).
  assert (threads (in_flight (PFun 2) 2) !! 0
          = Some (at_pc (L77 0) (call (PFun 2) (PStr "k") [] ∅))) as Hth
    by (vm_compute; reflexivity).
  assert (invoke ops (PFun 2) [] ∅ (world (in_flight (PFun 2) 2))
          = (Raise KeyboardInterrupt, 1)) as Hop by (vm_compute; reflexivity).
  assert (follower 1 (PStr "k") 0 (in_flight (PFun 2) 2)) as Hf
    by (apply (bool_decide_unpack _); vm_compute; exact I).
  destruct (base_exception_wedges_key ops 0 (PStr "k") 0 (in_flight (PFun 2) 2)
              (at_pc (L77 0) (call (PFun 2) (PStr "k") [] ∅)) KeyboardInterrupt 1
              Hok Hth eq_refl Hop eq_refl) as (s1 & Hstep & Hres & Hall).
  destruct (Hall (replicate 20 1)) as (_ & Hm & Hfol).
  destruct (Hfol 1 Hf) as [Hnone _].
  split_and!; [exact Hok|exact Hth|exact Hop|].
  exists s1. split_and!; [exact Hstep|exact Hres|exact Hm|exact Hnone].
Defined.


Lemma lock_held_in_critical_section_witness :
  entering (replicate 2 (call (PFun 0) (PStr "k") [] ∅))
  ∧ threads (run ops [0; 0; 0] (callers (PFun 0) 2)) !! 0
    = Some (at_pc L61 (call (PFun 0) (PStr "k") [] ∅))
  ∧ lock (run ops [0; 0; 0] (callers (PFun 0) 2)) = Some 0.
Proof.
  assert (entering (replicate 2 (call (PFun 0) (PStr "k") [] ∅))) as Hin
    by (apply (bool_decide_unpack _); vm_compute; exact I).
  assert (threads (run ops [0; 0; 0] (callers (PFun 0) 2)) !! 0
          = Some (at_pc L61 (call (PFun 0) (PStr "k") [] ∅))) as Hth
    by (vm_compute; reflexivity).
  destruct (lock_held_in_critical_section ops (replicate 2 (call (PFun 0) (PStr "k") [] ∅))
              0 [0; 0; 0] 0 (at_pc L61 (call (PFun 0) (PStr "k") [] ∅)) Hin Hth)
    as [[_ Hlk] _].
  split_and!; [exact Hin|exact Hth|exact (Hlk eq_refl)].
Defined.

Lemma one_leader_per_key_witness :
  entering (replicate 2 (call (PFun 0) (PStr "k") [] ∅))
  ∧ threads (in_flight (PFun 0) 2) !! 0
    = Some (at_pc (L77 0) (call (PFun 0) (PStr "k") [] ∅))
  ∧ m (in_flight (PFun 0) 2) !! PStr "k" = Some 0.
Proof.
  assert (entering (replicate 2 (call (PFun 0) (PStr "k") [] ∅))) as Hin
    by (apply (bool_decide_unpack _); vm_compute; exact I).
  assert (threads (in_flight (PFun 0) 2) !! 0
          = Some (at_pc (L77 0) (call (PFun 0) (PStr "k") [] ∅))) as Hth
    by (vm_compute; reflexivity).
  destruct (one_leader_per_key ops (replicate 2 (call (PFun 0) (PStr "k") [] ∅))
              0 (replicate 7 0 ++ replicate 5 1) 0
              (at_pc (L77 0) (call (PFun 0) (PStr "k") [] ∅)) 0 Hin Hth eq_refl)
    as (Hm & _).
  split_and!; [exact Hin|exact Hth|exact Hm].
Defined.

Lemma leader_outcome_witness :
  entering (replicate 2 (call (PFun 0) (PStr "k") [] ∅))
  ∧ threads (in_flight (PFun 0) 2) !! 0
    = Some (at_pc (L77 0) (call (PFun 0) (PStr "k") [] ∅))
  ∧ result_of 0 (run ops [0; 1; 0; 0; 1; 0; 1; 0; 0; 0; 0; 0] (in_flight (PFun 0) 2))
    = Some (Return (PInt 0))
  ∧ calls_for 0 (calls (run ops [0; 1; 0; 0; 1; 0; 1; 0; 0; 0; 0; 0] (in_flight (PFun 0) 2)))
    = [MkInvocation 0 0 (PStr "k") (PFun 0) [] ∅ (Return (PInt 0))].
Proof.
  assert (entering (replicate 2 (call (PFun 0) (PStr "k") [] ∅))) as Hin
    by (apply (bool_decide_unpack _); vm_compute; exact I).
  assert (threads (in_flight (PFun 0) 2) !! 0
          = Some (at_pc (L77 0) (call (PFun 0) (PStr "k") [] ∅))) as Hth
    by (vm_compute; reflexivity).
  assert (result_of 0 (run ops [0; 1; 0; 0; 1; 0; 1; 0; 0; 0; 0; 0] (in_flight (PFun 0) 2))
          = Some (Return (PInt 0))) as Hres by (vm_compute; reflexivity).
  pose proof (leader_outcome ops (replicate 2 (call (PFun 0) (PStr "k") [] ∅))
                0 (replicate 7 0 ++ replicate 5 1) [0; 1; 0; 0; 1; 0; 1; 0; 0; 0; 0; 0] 0
                (at_pc (L77 0) (call (PFun 0) (PStr "k") [] ∅)) 0 (Return (PInt 0))
                Hin Hth eq_refl Hres) as Hcs.
  split_and!; [exact Hin|exact Hth|exact Hres|exact Hcs].
Defined.

Lemma one_invocation_per_record_witness :
  entering (replicate 3 (call (PFun 0) (PStr "k") [] ∅))
  ∧ length (calls (run ops (replicate 16 0 ++ replicate 16 1 ++ replicate 8 2)
                     (callers (PFun 0) 3)))
    ≤ length (heap (run ops (replicate 16 0 ++ replicate 16 1 ++ replicate 8 2)
                      (callers (PFun 0) 3))).
Proof.
  assert (entering (replicate 3 (call (PFun 0) (PStr "k") [] ∅))) as Hin
    by (apply (bool_decide_unpack _); vm_compute; exact I).
  destruct (one_invocation_per_record ops (replicate 3 (call (PFun 0) (PStr "k") [] ∅))
              0 (replicate 16 0 ++ replicate 16 1 ++ replicate 8 2) Hin)
    as (_ & _ & Hle).
  split; [exact Hin|exact Hle].
Defined.

Lemma falsy_failure_read_as_success_witness :
  exec_ok 0 (PStr "k") 0
    (run ops_falsy (replicate 7 0 ++ replicate 5 1) (callers (PFun 0) 2))
  ∧ follower 1 (PStr "k") 0
      (run ops_falsy (replicate 7 0 ++ replicate 5 1) (callers (PFun 0) 2))
  ∧ result_of 1 (run ops_falsy [0; 0; 0; 0; 1; 1; 1; 1]
                   (run ops_falsy (replicate 7 0 ++ replicate 5 1) (callers (PFun 0) 2)))
    = Some (Return PNone)
  ∧ exn_truthy EmptyError = false.
Proof.
  assert (exec_ok 0 (PStr "k") 0
            (run ops_falsy (replicate 7 0 ++ replicate 5 1) (callers (PFun 0) 2))) as Hok
    by (apply (bool_decide_unpack _); vm_compute; exact I).
  assert (follower 1 (PStr "k") 0
            (run ops_falsy (replicate 7 0 ++ replicate 5 1) (callers (PFun 0) 2))) as Hf
    by (apply (bool_decide_unpack _); vm_compute; exact I).
  assert (m (run ops_falsy [0; 0; 0; 0; 1; 1; 1; 1]
               (run ops_falsy (replicate 7 0 ++ replicate 5 1) (callers (PFun 0) 2)))
            !! PStr "k" = Some 0) as Hreg by (vm_compute; reflexivity).
  assert (∃ o, result_of 1 (run ops_falsy [0; 0; 0; 0; 1; 1; 1; 1]
                 (run ops_falsy (replicate 7 0 ++ replicate 5 1) (callers (PFun 0) 2)))
               = Some o) as [o Hres] by (eexists; vm_compute; reflexivity).
  assert (MkInvocation 0 0 (PStr "k") (PFun 0) [] ∅ (Raise EmptyError)
          ∈ calls_for 0 (calls (run ops_falsy [0; 0; 0; 0; 1; 1; 1; 1]
              (run ops_falsy (replicate 7 0 ++ replicate 5 1) (callers (PFun 0) 2)))))
    as Hi by (apply (bool_decide_unpack _); vm_compute; exact I).
  pose proof (falsy_failure_read_as_success ops_falsy 0 1 (PStr "k") 0 _
                [0; 0; 0; 0; 1; 1; 1; 1] o _ EmptyError
                Hok Hf Hreg Hres Hi eq_refl eq_refl) as Ho.
  rewrite Ho in Hres.
  split_and!; [exact Hok|exact Hf|exact Hres|reflexivity].
Defined.

Lemma distinct_keys_never_coalesce_witness :
  entering (two_keys (PFun 0)) ∧ NoDup (t_key <$> two_keys (PFun 0))
  ∧ threads (run ops (replicate 7 0 ++ replicate 16 1 ++ replicate 9 0)
               (SingleFlight_init (two_keys (PFun 0)) 0)) !! 1
    = Some (at_pc (Done (Return (PInt 0))) (call (PFun 0) (PStr "b") [] ∅))
  ∧ ∃ l, calls_for l (calls (run ops (replicate 7 0 ++ replicate 16 1 ++ replicate 9 0)
                                (SingleFlight_init (two_keys (PFun 0)) 0)))
         = [MkInvocation 1 l (PStr "b") (PFun 0) [] ∅ (Return (PInt 0))].
Proof.
  assert (entering (two_keys (PFun 0))) as Hin
    by (apply (bool_decide_unpack _); vm_compute; exact I).
  assert (NoDup (t_key <$> two_keys (PFun 0))) as Hnd
    by (apply (bool_decide_unpack _); vm_compute; exact I).
  assert (threads (run ops (replicate 7 0 ++ replicate 16 1 ++ replicate 9 0)
                     (SingleFlight_init (two_keys (PFun 0)) 0)) !! 1
          = Some (at_pc (Done (Return (PInt 0))) (call (PFun 0) (PStr "b") [] ∅))) as Hth
    by (vm_compute; reflexivity).
  destruct (distinct_keys_never_coalesce ops (two_keys (PFun 0)) 0
              (replicate 7 0 ++ replicate 16 1 ++ replicate 9 0) 1 _ Hin Hnd Hth)
    as [_ Hout].
  split_and!; [exact Hin|exact Hnd|exact Hth|].
  destruct (Hout _ eq_refl) as [[Hstr _]|[[Hfn _]|Hl]];
    [discriminate Hstr|discriminate Hfn|exact Hl].
Defined.

Lemma lock_released_within_four_turns_witness :
  entering (replicate 2 (call (PFun 0) (PStr "k") [] ∅))
  ∧ lock (run ops [0; 0; 0] (callers (PFun 0) 2)) = Some 0
  ∧ is_Some (step ops 0 (run ops [0; 0; 0] (callers (PFun 0) 2))).
Proof.
  assert (entering (replicate 2 (call (PFun 0) (PStr "k") [] ∅))) as Hin
    by (apply (bool_decide_unpack _); vm_compute; exact I).
  assert (lock (run ops [0; 0; 0] (callers (PFun 0) 2)) = Some 0) as Hlk
    by (vm_compute; reflexivity).
  destruct (lock_released_within_four_turns ops
              (replicate 2 (call (PFun 0) (PStr "k") [] ∅)) 0 [0; 0; 0] 0 Hin Hlk)
    as [Hstep _].
  split_and!; [exact Hin|exact Hlk|exact Hstep].
Defined.


Lemma leader_completes_witness :
  entering (replicate 2 (call (PFun 0) (PStr "k") [] ∅))
  ∧ threads (in_flight (PFun 0) 2) !! 0
    = Some (at_pc (L77 0) (call (PFun 0) (PStr "k") [] ∅))
  ∧ lock (in_flight (PFun 0) 2) = None
  ∧ result_of 0 (run ops (replicate 9 0) (in_flight (PFun 0) 2)) = Some (Return (PInt 0))
  ∧ m (run ops (replicate 9 0) (in_flight (PFun 0) 2)) !! PStr "k" = None.
Proof.
  assert (entering (replicate 2 (call (PFun 0) (PStr "k") [] ∅))) as Hin
    by (apply (bool_decide_unpack _); vm_compute; exact I).
  assert (threads (in_flight (PFun 0) 2) !! 0
          = Some (at_pc (L77 0) (call (PFun 0) (PStr "k") [] ∅))) as Hth
    by (vm_compute; reflexivity).
  assert (lock (in_flight (PFun 0) 2) = None) as Hlk by (vm_compute; reflexivity).
  assert (invoke ops (PFun 0) [] ∅ (world (in_flight (PFun 0) 2)) = (Return (PInt 0), 1))
    as Hop by (vm_compute; reflexivity).
  destruct (leader_completes ops (replicate 2 (call (PFun 0) (PStr "k") [] ∅))
              0 (replicate 7 0 ++ replicate 5 1) 0
              (at_pc (L77 0) (call (PFun 0) (PStr "k") [] ∅)) 0 (Return (PInt 0)) 1
              Hin Hth eq_refl Hlk Hop eq_refl) as (Hres & Hm & _).
  split_and!; [exact Hin|exact Hth|exact Hlk|exact Hres|exact Hm].
Defined.
